(** * solana-key-gen: vanity key search and pool maintenance

    A shallow embedding of [main.go] (the current program) and of the
    suffix test of its older variant.  Go strings are byte strings
    ([string]), Go [int]/[int64]/[rune] values are [Z], byte arrays are
    [list byte].  The goroutines of [generateVanityKeypair] are modelled
    by an interleaving step function driven by a schedule; the endless
    loop of [maintainUnpickedKeys] by a step function over its control
    points.  The Go packages the program calls ([strings], [unicode],
    [unicode/utf8], [base58], [types]) are modelled in modules of the
    same names. *)

From Stdlib Require Import ZArith Lia.
From Stdlib.Strings Require Import Ascii Byte.
From stdpp Require Import base numbers list strings.

Local Open Scope Z_scope.

(* ===================================================================== *)
(** ** Go strings *)
(* ===================================================================== *)

(** [len(s)] *)
Definition len (s : string) : Z := Z.of_nat (String.length s).

(** [s[lo:hi]] for [0 <= lo <= hi <= len(s)] *)
Definition slice (s : string) (lo hi : Z) : string :=
  String.substring (Z.to_nat lo) (Z.to_nat (hi - lo)) s.

(** [s[i]] as a number; 0 outside the string (never read there) *)
Definition byteAt (s : string) (i : Z) : Z :=
  match String.get (Z.to_nat i) s with
  | Some c => Z.of_N (N_of_ascii c)
  | None => 0
  end.

(** The bytes of a string, as numbers. *)
Fixpoint bytesOf (s : string) : list Z :=
  match s with
  | EmptyString => []
  | String c s' => Z.of_N (N_of_ascii c) :: bytesOf s'
  end.

(** [string(bs)] for a byte slice *)
Fixpoint stringOf (bs : list Z) : string :=
  match bs with
  | [] => EmptyString
  | b :: bs' => String (ascii_of_N (Z.to_N b)) (stringOf bs')
  end.

(** "s ends with t": the relation the specification calls a suffix match. *)
Definition ends_with (s t : string) : Prop := exists p, s = p +:+ t.

(* ===================================================================== *)
(** ** Package unicode/utf8 *)
(* ===================================================================== *)

Module utf8.

Definition RuneError : Z := 65533.  (* U+FFFD *)
Definition RuneSelf : Z := 128.
Definition UTFMax : Z := 4.

Definition maskx : Z := 63.   (* 0b00111111 *)
Definition mask2 : Z := 31.   (* 0b00011111 *)
Definition mask3 : Z := 15.   (* 0b00001111 *)
Definition mask4 : Z := 7.    (* 0b00000111 *)
Definition locb : Z := 128.   (* 0b10000000 *)
Definition hicb : Z := 191.   (* 0b10111111 *)

(** The classes of the table [first]: [xx] invalid, [as_] ASCII, the
    others size in the low bits and accept range in the high ones. *)
Definition xx : Z := 241.   (* 0xF1 *)
Definition as_ : Z := 240.  (* 0xF0 *)
Definition s1 : Z := 2.     (* 0x02 *)
Definition s2 : Z := 19.    (* 0x13 *)
Definition s3 : Z := 3.     (* 0x03 *)
Definition s4 : Z := 35.    (* 0x23 *)
Definition s5 : Z := 52.    (* 0x34 *)
Definition s6 : Z := 4.     (* 0x04 *)
Definition s7 : Z := 68.    (* 0x44 *)

Definition first (b : Z) : Z :=
  if b <? 128 then as_            (* 0x00-0x7F *)
  else if b <? 194 then xx        (* 0x80-0xC1 *)
  else if b <? 224 then s1        (* 0xC2-0xDF *)
  else if b =? 224 then s2        (* 0xE0 *)
  else if b <? 237 then s3        (* 0xE1-0xEC *)
  else if b =? 237 then s4        (* 0xED *)
  else if b <? 240 then s3        (* 0xEE-0xEF *)
  else if b =? 240 then s5        (* 0xF0 *)
  else if b <? 244 then s6        (* 0xF1-0xF3 *)
  else if b =? 244 then s7        (* 0xF4 *)
  else xx.                        (* 0xF5-0xFF *)

(** [acceptRanges[k]] as the pair (lo, hi) *)
Definition acceptRanges (k : Z) : Z * Z :=
  if k =? 0 then (locb, hicb)
  else if k =? 1 then (160, hicb)
  else if k =? 2 then (locb, 159)
  else if k =? 3 then (144, hicb)
  else if k =? 4 then (locb, 143)
  else (0, 0).

(** [DecodeRuneInString(s)]: the first rune of [s] and its width. *)
Definition DecodeRuneInString (s : string) : Z * Z :=
  let n := len s in
  match bytesOf s with
  | [] => (RuneError, 0)
  | s0 :: rest =>
    let x := first s0 in
    if as_ <=? x then
      (* mask is all ones for [xx] and zero for [as_] *)
      (if Z.odd x then RuneError else s0, 1)
    else
      let sz := Z.land x 7 in
      let accept := acceptRanges (Z.shiftr x 4) in
      if n <? sz then (RuneError, 1) else
      match rest with
      | [] => (RuneError, 1)
      | b1 :: rest1 =>
        if (b1 <? fst accept) || (snd accept <? b1) then (RuneError, 1) else
        if sz <=? 2 then
          (Z.lor (Z.shiftl (Z.land s0 mask2) 6) (Z.land b1 maskx), 2)
        else
        match rest1 with
        | [] => (RuneError, 1)
        | b2 :: rest2 =>
          if (b2 <? locb) || (hicb <? b2) then (RuneError, 1) else
          if sz <=? 3 then
            (Z.lor (Z.lor (Z.shiftl (Z.land s0 mask3) 12)
                          (Z.shiftl (Z.land b1 maskx) 6))
                   (Z.land b2 maskx), 3)
          else
          match rest2 with
          | [] => (RuneError, 1)
          | b3 :: _ =>
            if (b3 <? locb) || (hicb <? b3) then (RuneError, 1) else
            (Z.lor (Z.lor (Z.lor (Z.shiftl (Z.land s0 mask4) 18)
                                 (Z.shiftl (Z.land b1 maskx) 12))
                          (Z.shiftl (Z.land b2 maskx) 6))
                   (Z.land b3 maskx), 4)
          end
        end
      end
  end.

(** [RuneStart(b)] *)
Definition RuneStart (b : Z) : bool := negb (Z.land b 192 =? 128).

(** The loop [for start--; start >= lim; start-- { if RuneStart(s[start]) { break } }];
    [fuel] bounds its at most [UTFMax] rounds. *)
Fixpoint backToStart (fuel : nat) (s : string) (start lim : Z) : Z :=
  match fuel with
  | O => start
  | S k =>
    if start <? lim then start
    else if RuneStart (byteAt s start) then start
    else backToStart k s (start - 1) lim
  end.

(** [DecodeLastRuneInString(s)]: the last rune of [s] and its width. *)
Definition DecodeLastRuneInString (s : string) : Z * Z :=
  let end_ := len s in
  if end_ =? 0 then (RuneError, 0) else
  let start := end_ - 1 in
  let r := byteAt s start in
  if r <? RuneSelf then (r, 1) else
  let lim := Z.max 0 (end_ - UTFMax) in
  let start := backToStart 4 s (start - 1) lim in
  let start := Z.max 0 start in
  let '(r, size) := DecodeRuneInString (slice s start end_) in
  if negb (start + size =? end_) then (RuneError, 1) else (r, size).

End utf8.

(* ===================================================================== *)
(** ** Package unicode *)
(* ===================================================================== *)

Module unicode.

Definition MaxLatin1 : Z := 255.

(** [IsSpace(r)]: the Latin-1 switch, then the [White_Space] table. *)
Definition IsSpace (r : Z) : bool :=
  if (0 <=? r) && (r <=? MaxLatin1) then
    (r =? 9) || (r =? 10) || (r =? 11) || (r =? 12) || (r =? 13) ||
    (r =? 32) || (r =? 133) || (r =? 160)
  else
    (r =? 5760) ||                          (* U+1680 *)
    ((8192 <=? r) && (r <=? 8202)) ||       (* U+2000-U+200A *)
    (r =? 8232) || (r =? 8233) ||           (* U+2028, U+2029 *)
    (r =? 8239) || (r =? 8287) ||           (* U+202F, U+205F *)
    (r =? 12288).                           (* U+3000 *)

End unicode.

(* ===================================================================== *)
(** ** Package strings *)
(* ===================================================================== *)

Module strings.

(** [HasSuffix(s, suffix)]:
    [len(s) >= len(suffix) && s[len(s)-len(suffix):] == suffix] *)
Definition HasSuffix (s suffix : string) : bool :=
  (len suffix <=? len s) &&
  String.eqb (slice s (len s - len suffix) (len s)) suffix.

(** [asciiSpace[c] == 1] for the bytes tab, newline, vertical tab, form feed,
    carriage return and space *)
Definition asciiSpace (c : Z) : bool :=
  (c =? 9) || (c =? 10) || (c =? 11) || (c =? 12) || (c =? 13) || (c =? 32).

(** [indexFunc(s, f, truth)] from byte offset [i]: the [range] loop over
    the runes of [s]. *)
Fixpoint indexFunc_from (fuel : nat) (s : string) (i : Z)
    (f : Z -> bool) (truth : bool) : Z :=
  match fuel with
  | O => -1
  | S k =>
    if len s <=? i then -1 else
    let '(r, size) := utf8.DecodeRuneInString (slice s i (len s)) in
    if Bool.eqb (f r) truth then i
    else indexFunc_from k s (i + size) f truth
  end.

Definition indexFunc (s : string) (f : Z -> bool) (truth : bool) : Z :=
  indexFunc_from (S (String.length s)) s 0 f truth.

(** [lastIndexFunc(s, f, truth)]: [for i := len(s); i > 0; ...] *)
Fixpoint lastIndexFunc_from (fuel : nat) (s : string) (i : Z)
    (f : Z -> bool) (truth : bool) : Z :=
  match fuel with
  | O => -1
  | S k =>
    if i <=? 0 then -1 else
    let '(r, size) := utf8.DecodeLastRuneInString (slice s 0 i) in
    let i := i - size in
    if Bool.eqb (f r) truth then i
    else lastIndexFunc_from k s i f truth
  end.

Definition lastIndexFunc (s : string) (f : Z -> bool) (truth : bool) : Z :=
  lastIndexFunc_from (S (String.length s)) s (len s) f truth.

Definition TrimLeftFunc (s : string) (f : Z -> bool) : string :=
  let i := indexFunc s f false in
  if i =? -1 then EmptyString else slice s i (len s).

Definition TrimRightFunc (s : string) (f : Z -> bool) : string :=
  let i := lastIndexFunc s f false in
  let i :=
    if (0 <=? i) && (utf8.RuneSelf <=? byteAt s i) then
      i + snd (utf8.DecodeRuneInString (slice s i (len s)))
    else i + 1 in
  slice s 0 i.

Definition TrimFunc (s : string) (f : Z -> bool) : string :=
  TrimRightFunc (TrimLeftFunc s f) f.

(** The first loop of [TrimSpace]: [inl start] when it ends at an ASCII
    byte that is no space (or at the end), [inr start] when it meets a
    byte [>= RuneSelf] and falls back to [TrimFunc]. *)
Fixpoint trimStart (fuel : nat) (s : string) (start : Z) : Z + Z :=
  match fuel with
  | O => inl start
  | S k =>
    if len s <=? start then inl start else
    let c := byteAt s start in
    if utf8.RuneSelf <=? c then inr start
    else if negb (asciiSpace c) then inl start
    else trimStart k s (start + 1)
  end.

(** The second loop, [for ; stop > start; stop--]. *)
Fixpoint trimStop (fuel : nat) (s : string) (start stop : Z) : Z + Z :=
  match fuel with
  | O => inl stop
  | S k =>
    if stop <=? start then inl stop else
    let c := byteAt s (stop - 1) in
    if utf8.RuneSelf <=? c then inr stop
    else if negb (asciiSpace c) then inl stop
    else trimStop k s start (stop - 1)
  end.

(** [TrimSpace(s)] *)
Definition TrimSpace (s : string) : string :=
  match trimStart (S (String.length s)) s 0 with
  | inr start => TrimFunc (slice s start (len s)) unicode.IsSpace
  | inl start =>
    match trimStop (S (String.length s)) s start (len s) with
    | inr stop => TrimRightFunc (slice s start stop) unicode.IsSpace
    | inl stop => slice s start stop
    end
  end.

End strings.

(* ===================================================================== *)
(** ** Package base58 (github.com/mr-tron/base58) *)
(* ===================================================================== *)

Module base58.

(** [BTCAlphabet] *)
Definition alphabet : string :=
  "123456789ABCDEFGHJKLMNPQRSTUVWXYZabcdefghijkmnopqrstuvwxyz".

(** [alphabet.encode[d]] *)
Definition encodeDigit (d : Z) : ascii :=
  match String.get (Z.to_nat d) alphabet with
  | Some c => c
  | None => "1"%char
  end.

(** The number of leading zero bytes of the input ([zcount]). *)
Fixpoint zcount (bin : list byte) : nat :=
  match bin with
  | x00 :: bin' => S (zcount bin')
  | _ => O
  end.

(** The digits of a left-over carry, least significant first. *)
Fixpoint carryDigits (fuel : nat) (carry : Z) : list Z :=
  match fuel with
  | O => []
  | S k =>
    if carry =? 0 then []
    else (carry mod 58) :: carryDigits k (carry / 58)
  end.

(** One round of the outer loop of [FastBase58EncodingAlphabet]: the
    base-58 digits written so far (least significant first, the buffer
    [out] read from its end) are multiplied by 256 and the byte is added;
    [carry] is a [uint32]. *)
Fixpoint mulAdd (digits : list Z) (carry : Z) : list Z :=
  match digits with
  | [] => carryDigits 32 carry
  | d :: digits' =>
    let carry := (carry + 256 * d) mod 2 ^ 32 in
    (carry mod 58) :: mulAdd digits' (carry / 58)
  end.

Definition digitsOf (bin : list byte) : list Z :=
  fold_left (fun digits b => mulAdd digits (Z.of_N (Byte.to_N b))) bin [].

Fixpoint charsToString (cs : list ascii) : string :=
  match cs with
  | [] => EmptyString
  | c :: cs' => String c (charsToString cs')
  end.

(** [Encode(bin)]: one ['1'] per leading zero byte, then the base-58
    digits of the number, most significant first. *)
Definition Encode (bin : list byte) : string :=
  charsToString
    (repeat (encodeDigit 0) (zcount bin) ++
     map encodeDigit (rev (digitsOf bin))).

End base58.

(* ===================================================================== *)
(** ** Package types (github.com/blocto/solana-go-sdk/types) *)
(* ===================================================================== *)

Module types.

(** An [Account]: the 32-byte public key and the 64-byte ed25519 private
    key.  [NewAccount()] draws one from the system's random source; the
    model takes each drawn account from the environment. *)
Record Account := mkAccount {
  PublicKey : list byte;
  PrivateKey : list byte
}.

End types.

(* ===================================================================== *)
(** ** main.go: data *)
(* ===================================================================== *)

(** [type Keypair struct { Priv string; Pub string }] *)
Record Keypair := mkKeypair {
  Priv : string;
  Pub : string
}.

(** [Keypair{}] *)
Definition zeroKeypair : Keypair := mkKeypair "" "".

(** What [ctx.Err()] returns once [ctx.Done()] is closed. *)
Inductive ctxError := Canceled | DeadlineExceeded.

(** Values of Go's [error] that the program meets: the error of a
    context, or an error reported by the gorm session. *)
Inductive error :=
| ContextError (e : ctxError)
| StoreError (msg : string).

(** [type TokenKey struct]; [CreatedAt] as a time stamp. *)
Record TokenKey := mkTokenKey {
  ID : string;
  PrivateKey : string;
  PublicKey : string;
  IsPicked : bool;
  CreatedAt : Z
}.

(* ===================================================================== *)
(** ** main.go: generateVanityKeypair *)
(* ===================================================================== *)

Module Search.

(** Where a [worker] goroutine stands. *)
Inductive wpc :=
| WSelect                (* line 52: at the [select] *)
| WSample                (* line 56: [default] taken, before [NewAccount] *)
| WSend (kp : Keypair)   (* line 59: at [found <- Keypair{...}] *)
| WDone.                 (* returned *)

(** Where the goroutine that runs the function body stands. *)
Inductive mpc :=
| MEntry                                    (* line 47 *)
| MSpawn (i : Z)                            (* line 69: loop test *)
| MSelect                                   (* line 73 *)
| MReturn (kp : Keypair) (err : option error).

(** One call of [generateVanityKeypair(ctx, suffix, workers)]. *)
Record call := mkCall {
  suffix : string;           (* the variable [suffix] *)
  ctxErr : option ctxError;  (* [Some] once [ctx.Done()] is closed *)
  found : list Keypair;      (* buffer of the channel [found] *)
  pool : list wpc;           (* the goroutines started by [go worker()] *)
  caller : mpc;
  draws : nat                (* calls of [types.NewAccount] so far *)
}.

(** [make(chan Keypair, 1)] *)
Definition foundCap : nat := 1.

Definition enter (suffix : string) : call :=
  mkCall suffix None [] [] MEntry 0.

Definition set_pc (i : nat) (pc : wpc) (st : call) : call :=
  mkCall (suffix st) (ctxErr st) (found st) (<[i := pc]> (pool st))
         (caller st) (draws st).

Definition set_caller (pc : mpc) (st : call) : call :=
  mkCall (suffix st) (ctxErr st) (found st) (pool st) pc (draws st).

(** What the scheduler and the environment can do next. *)
Inductive event :=
| Cancel (e : ctxError)
    (* the context is cancelled, or its deadline passes *)
| Main (pickFound : bool)
    (* the calling goroutine runs to its next point; the flag is the
       choice of [select] when both of its cases are ready *)
| Worker (i : nat) (acc : types.Account).
    (* worker [i] runs to its next point; [acc] is what [NewAccount]
       returns if the worker calls it *)

(** The closure [worker], lines 50-67. *)
Definition worker (i : nat) (acc : types.Account) (st : call) : option call :=
  match pool st !! i with
  | Some WSelect =>
    match ctxErr st with
    | Some _ => Some (set_pc i WDone st)          (* case <-ctx.Done() *)
    | None => Some (set_pc i WSample st)          (* default *)
    end
  | Some WSample =>
    let pub := base58.Encode (types.PublicKey acc) in
    let st := mkCall (suffix st) (ctxErr st) (found st) (pool st)
                     (caller st) (S (draws st)) in
    if strings.HasSuffix pub (suffix st) then
      Some (set_pc i
              (WSend (mkKeypair (base58.Encode (types.PrivateKey acc)) pub))
              st)
    else Some (set_pc i WSelect st)
  | Some (WSend kp) =>
    if (length (found st) <? foundCap)%nat then
      Some (set_pc i WDone
              (mkCall (suffix st) (ctxErr st) (found st ++ [kp]) (pool st)
                      (caller st) (draws st)))
    else None                                      (* the send blocks *)
  | Some WDone | None => None
  end.

(** The function body, lines 47-48 and 69-78. *)
Definition body (workers : Z) (pickFound : bool) (st : call) : option call :=
  match caller st with
  | MEntry =>
    Some (mkCall (strings.TrimSpace (suffix st)) (ctxErr st) [] (pool st)
                 (MSpawn 0) (draws st))
  | MSpawn i =>
    if i <? workers then
      Some (mkCall (suffix st) (ctxErr st) (found st) (pool st ++ [WSelect])
                   (MSpawn (i + 1)) (draws st))
    else Some (set_caller MSelect st)
  | MSelect =>
    let ret_done e := set_caller (MReturn zeroKeypair (Some (ContextError e))) st in
    let ret_found kp rest :=
      mkCall (suffix st) (ctxErr st) rest (pool st) (MReturn kp None) (draws st) in
    match ctxErr st, found st with
    | None, [] => None                             (* blocks *)
    | Some e, [] => Some (ret_done e)
    | None, kp :: rest => Some (ret_found kp rest)
    | Some e, kp :: rest =>
      Some (if pickFound then ret_found kp rest else ret_done e)
    end
  | MReturn _ _ => None
  end.

Definition step (workers : Z) (e : event) (st : call) : option call :=
  match e with
  | Cancel err =>
    match ctxErr st with
    | None => Some (mkCall (suffix st) (Some err) (found st) (pool st)
                           (caller st) (draws st))
    | Some _ => Some st
    end
  | Main pickFound => body workers pickFound st
  | Worker i acc => worker i acc st
  end.

(** A finite schedule; [None] when one of its events cannot happen. *)
Fixpoint run (workers : Z) (sched : list event) (st : call) : option call :=
  match sched with
  | [] => Some st
  | e :: sched' =>
    match step workers e st with
    | Some st' => run workers sched' st'
    | None => None
    end
  end.

(** An endless schedule; an event that cannot happen leaves the state. *)
Definition step_or_stay (workers : Z) (e : event) (st : call) : call :=
  match step workers e st with
  | Some st' => st'
  | None => st
  end.

Fixpoint after (workers : Z) (sched : nat -> event) (s : string) (n : nat) : call :=
  match n with
  | O => enter s
  | S k => step_or_stay workers (sched k) (after workers sched s k)
  end.

Definition is_main (e : event) : bool :=
  match e with Main _ => true | _ => false end.

Definition is_worker (i : nat) (e : event) : bool :=
  match e with Worker j _ => Nat.eqb i j | _ => false end.

Definition is_cancel (e : event) : bool :=
  match e with Cancel _ => true | _ => false end.

(** Every goroutine of the call is scheduled again and again. *)
Definition fair (workers : Z) (sched : nat -> event) : Prop :=
  (forall n, exists m, (n <= m)%nat /\ is_main (sched m) = true) /\
  (forall i, Z.of_nat i < workers ->
     forall n, exists m, (n <= m)%nat /\ is_worker i (sched m) = true).

(** The accounts of the schedule are the ones a sampler hands out, in
    the order of the calls of [NewAccount]. *)
Definition drawn_from (sampler : nat -> types.Account) (workers : Z)
    (s : string) (sched : nat -> event) : Prop :=
  forall n i acc, sched n = Worker i acc ->
    acc = sampler (draws (after workers sched s n)).

(** No worker has found a match: none is at its send, none has sent. *)
Definition no_match_yet (st : call) : Prop :=
  found st = [] /\ forall i kp, pool st !! i <> Some (WSend kp).

End Search.

(* ===================================================================== *)
(** ** main.go: the key store and maintainUnpickedKeys *)
(* ===================================================================== *)

Module Maintain.

(** [time.Duration] counts nanoseconds. *)
Definition Second : Z := 1000000000.
Definition Minute : Z := 60 * Second.

(** The table [token_key] as the list of its rows. *)
Definition table := list TokenKey.

(** What the outside world supplies when the loop runs on: whether the
    store call made in this step fails (a lost connection, a violated
    constraint other than the one the statement handles, ...), the
    result of [uuid.NewString()] and the clock. *)
Record env := mkEnv {
  fault : option error;
  uuid : string;
  now : Z
}.

(** [countUnpicked(db)]:
    [db.Model(&TokenKey{}).Where("is_picked = false").Count(&c)] *)
Definition countUnpicked (fault : option error) (db : table) : Z * option error :=
  match fault with
  | Some e => (0, Some e)
  | None =>
    (Z.of_nat (length (List.filter (fun r => negb (IsPicked r)) db)), None)
  end.

Definition hasPublicKey (pub : string) (db : table) : bool :=
  existsb (fun r => String.eqb (PublicKey r) pub) db.

(** [db.Clauses(clause.OnConflict{Columns: public_key, DoNothing: true}).Create(&newKey)]:
    the row is skipped, without an error, when its [public_key] is
    stored already; [CreatedAt] is filled in when it is the zero time. *)
Definition createOnConflictDoNothing (fault : option error) (now : Z)
    (newKey : TokenKey) (db : table) : table * option error :=
  match fault with
  | Some e => (db, Some e)
  | None =>
    if hasPublicKey (PublicKey newKey) db then (db, None)
    else
      (db ++ [mkTokenKey (ID newKey) (PrivateKey newKey) (PublicKey newKey)
                         (IsPicked newKey)
                         (if CreatedAt newKey =? 0 then now
                          else CreatedAt newKey)],
       None)
  end.

(** An external consumer sets [is_picked] on the row of a public key. *)
Definition markPicked (pub : string) (db : table) : table :=
  map (fun r =>
         if String.eqb (PublicKey r) pub
         then mkTokenKey (ID r) (PrivateKey r) (PublicKey r) true (CreatedAt r)
         else r) db.

(** The arguments of [maintainUnpickedKeys] after [db]. *)
Record config := mkConfig {
  target : Z;
  suffix : string;
  sleepDur : Z;
  workers : Z
}.

(** The four calls of [time.Sleep]. *)
Inductive site :=
| CountBackoff             (* line 92 *)
| Enough                   (* line 98 *)
| SearchBackoff (c : Z)    (* line 109, inside the inner loop *)
| AfterFill.               (* line 138, after the inner loop *)

Definition duration (cfg : config) (s : site) : Z :=
  match s with
  | CountBackoff => 10 * Second
  | Enough => sleepDur cfg
  | SearchBackoff _ => 1 * Second
  | AfterFill => sleepDur cfg
  end.

(** Where the loop stands. *)
Inductive pc :=
| Checking                                (* line 89 *)
| Sleeping (s : site)                     (* inside [time.Sleep] *)
| Filling (c : Z)                         (* line 103: loop test *)
| Searching (c : Z) (g : Search.call)     (* line 105: inside the call *)
| Inserting (c : Z) (kp : Keypair)        (* lines 113-123 *)
| Recounting (newKey : TokenKey).         (* line 129 *)

Record state := mkState {
  at_ : pc;
  db : table
}.

Inductive logmsg :=
| CountFailed (e : error)                 (* line 91 *)
| EnoughKeys (c target sleepDur : Z)      (* line 97 *)
| BelowTarget (c target : Z)              (* line 102 *)
| SearchFailed (e : error)                (* line 108 *)
| InsertFailed (e : error)                (* line 125 *)
| RecountFailed (e : error)               (* line 131 *)
| Added (pub : string) (c : Z)            (* line 134 *)
| TargetReached (target sleepDur : Z).    (* line 137 *)

(** What a step does to the outside. *)
Inductive effect :=
| Log (m : logmsg)
| CallCount
| CallSearch
| CallCancel
| CallCreate (newKey : TokenKey)
| Sleep (d : Z).

Inductive input :=
| Tick (e : env)
    (* the loop's goroutine runs to its next point *)
| InSearch (ev : Search.event)
    (* a goroutine of the running search takes a step *)
| Pick (pub : string).
    (* an external consumer marks a key as picked *)

Definition sleep (cfg : config) (s : site) (db : table) (effs : list effect)
    : state * list effect :=
  (mkState (Sleeping s) db, effs ++ [Sleep (duration cfg s)]).

(** The loop body, from one point to the next. *)
Definition tick (cfg : config) (e : env) (st : state)
    : option (state * list effect) :=
  match at_ st with
  | Checking =>
    match countUnpicked (fault e) (db st) with
    | (_, Some err) =>
      Some (sleep cfg CountBackoff (db st) [CallCount; Log (CountFailed err)])
    | (c, None) =>
      if target cfg <=? c then
        Some (sleep cfg Enough (db st)
                [CallCount; Log (EnoughKeys c (target cfg) (sleepDur cfg))])
      else
        Some (mkState (Filling c) (db st),
              [CallCount; Log (BelowTarget c (target cfg))])
    end
  | Sleeping CountBackoff | Sleeping Enough | Sleeping AfterFill =>
    Some (mkState Checking (db st), [])
  | Sleeping (SearchBackoff c) =>
    Some (mkState (Filling c) (db st), [])
  | Filling c =>
    if c <? target cfg then
      Some (mkState (Searching c (Search.enter (suffix cfg))) (db st),
            [CallSearch])
    else
      Some (sleep cfg AfterFill (db st)
              [Log (TargetReached (target cfg) (sleepDur cfg))])
  | Searching c g =>
    match Search.caller g with
    | Search.MReturn kp (Some err) =>
      Some (sleep cfg (SearchBackoff c) (db st)
              [CallCancel; Log (SearchFailed err)])
    | Search.MReturn kp None =>
      Some (mkState (Inserting c kp) (db st), [CallCancel])
    | _ => None                      (* the call has not returned *)
    end
  | Inserting c kp =>
    let newKey := mkTokenKey (uuid e) (Priv kp) (Pub kp) false 0 in
    match createOnConflictDoNothing (fault e) (now e) newKey (db st) with
    | (db', Some err) =>
      Some (mkState (Filling c) db',
            [CallCreate newKey; Log (InsertFailed err)])
    | (db', None) =>
      Some (mkState (Recounting newKey) db', [CallCreate newKey])
    end
  | Recounting newKey =>
    match countUnpicked (fault e) (db st) with
    | (_, Some err) =>
      Some (sleep cfg AfterFill (db st)
              [CallCount; Log (RecountFailed err);
               Log (TargetReached (target cfg) (sleepDur cfg))])
    | (c, None) =>
      Some (mkState (Filling c) (db st),
            [CallCount; Log (Added (PublicKey newKey) c)])
    end
  end.

(** The whole machine.  The context of a search is made by
    [context.WithCancel(context.Background())] on line 104 and its
    [cancel] is called on line 106 only, so no [Cancel] event reaches a
    running search. *)
Definition step (cfg : config) (i : input) (st : state)
    : option (state * list effect) :=
  match i with
  | Tick e => tick cfg e st
  | InSearch ev =>
    match at_ st with
    | Searching c g =>
      if Search.is_cancel ev then None
      else
        match Search.step (workers cfg) ev g with
        | Some g' => Some (mkState (Searching c g') (db st), [])
        | None => None
        end
    | _ => None
    end
  | Pick pub => Some (mkState (at_ st) (markPicked pub (db st)), [])
  end.

Fixpoint run (cfg : config) (ins : list input) (st : state)
    : option (state * list effect) :=
  match ins with
  | [] => Some (st, [])
  | i :: ins' =>
    match step cfg i st with
    | Some (st', effs) =>
      match run cfg ins' st' with
      | Some (st'', effs') => Some (st'', effs ++ effs')
      | None => None
      end
    | None => None
    end
  end.

Definition is_pick (i : input) : bool :=
  match i with Pick _ => true | _ => false end.

(** No external consumer acts during the run. *)
Definition no_pick (ins : list input) : Prop :=
  forallb (fun i => negb (is_pick i)) ins = true.

(** Rows of the table with a given public key. *)
Definition rowsWith (pub : string) (db : table) : list TokenKey :=
  List.filter (fun r => String.eqb (PublicKey r) pub) db.

(** The unique index on [public_key]. *)
Definition uniquePublicKeys (db : table) : Prop :=
  NoDup (map PublicKey db).

End Maintain.

(* ===================================================================== *)
(** ** The older variant: its suffix test *)
(* ===================================================================== *)

Module Older.

(** [s[i:]]; [None] is the run-time panic of a slice out of range. *)
Definition sliceFrom (s : string) (i : Z) : option string :=
  if (i <? 0) || (len s <? i) then None
  else Some (slice s i (len s)).

(** The test on line 53 of the older [generateVanityKeypair]:
    [len(pubkeyString) >= len(suffix) &&
     pubkeyString[len(pubkeyString)-len(suffix):] == suffix];
    the right operand is evaluated only when the left one holds. *)
Definition tailMatch (pubkeyString suffix : string) : option bool :=
  if len suffix <=? len pubkeyString then
    match sliceFrom pubkeyString (len pubkeyString - len suffix) with
    | Some t => Some (String.eqb t suffix)
    | None => None
    end
  else Some false.

End Older.

(* ===================================================================== *)
(** ** Predicates used in the statements *)
(* ===================================================================== *)

(** Every byte of the string satisfies [P]. *)
Fixpoint allChars (P : ascii -> bool) (s : string) : bool :=
  match s with
  | EmptyString => true
  | String c s' => P c && allChars P s'
  end.

(** A character of the base-58 alphabet. *)
Definition isBase58 (c : ascii) : bool :=
  existsb (Ascii.eqb c) (String.list_ascii_of_string base58.alphabet).

(** An ASCII byte that [strings.TrimSpace] does not trim. *)
Definition isPlain (c : ascii) : bool :=
  let n := Z.of_N (N_of_ascii c) in
  (n <? utf8.RuneSelf) && negb (strings.asciiSpace n).

(** The key pair's public encoding passes the test of line 58 for [t]. *)
Definition matches (t : string) (kp : Keypair) : Prop :=
  strings.HasSuffix (Pub kp) t = true.

(** What holds in every state of a call
    [generateVanityKeypair(ctx, s, workers)]. *)
Record search_inv (workers : Z) (s : string) (st : Search.call) : Prop := {
  inv_suffix :
    Search.suffix st =
    match Search.caller st with
    | Search.MEntry => s
    | _ => strings.TrimSpace s
    end;
  inv_entry :
    Search.caller st = Search.MEntry ->
    Search.found st = [] /\ Search.pool st = [];
  inv_found :
    forall kp, In kp (Search.found st) -> matches (strings.TrimSpace s) kp;
  inv_send :
    forall i kp, Search.pool st !! i = Some (Search.WSend kp) ->
      matches (strings.TrimSpace s) kp;
  inv_ok :
    forall kp, Search.caller st = Search.MReturn kp None ->
      matches (strings.TrimSpace s) kp;
  inv_err :
    forall kp e, Search.caller st = Search.MReturn kp (Some e) ->
      kp = zeroKeypair /\
      exists ce, e = ContextError ce /\ Search.ctxErr st = Some ce;
  inv_cap : (length (Search.found st) <= Search.foundCap)%nat;
  inv_spawn :
    forall i, Search.caller st = Search.MSpawn i ->
      0 <= i /\ Z.of_nat (length (Search.pool st)) = i;
  inv_pool : Z.of_nat (length (Search.pool st)) <= Z.max 0 workers
}.

(** No worker is between its check of [ctx.Done()] and its send. *)
Definition idle (st : Search.call) : Prop :=
  forall i pc, Search.pool st !! i = Some pc ->
    pc = Search.WSelect \/ pc = Search.WDone.

(** The context was cancelled with [e] while the workers were idle and
    the channel empty. *)
Definition cancelled_idle (e : ctxError) (st : Search.call) : Prop :=
  Search.ctxErr st = Some e /\
  Search.found st = [] /\
  idle st /\
  (forall kp err, Search.caller st = Search.MReturn kp err ->
     kp = zeroKeypair /\ err = Some (ContextError e)).

(** A matching key is in the channel or has been returned. *)
Definition published (st : Search.call) : Prop :=
  Search.found st <> [] \/ exists kp, Search.caller st = Search.MReturn kp None.

(** Some worker has found a match. *)
Definition matched (st : Search.call) : Prop :=
  published st \/ exists i kp, Search.pool st !! i = Some (Search.WSend kp).

(** While the context is not done, a worker returns only after a send. *)
Definition live_inv (st : Search.call) : Prop :=
  Search.ctxErr st = None /\
  ((exists i, Search.pool st !! i = Some Search.WDone) -> published st).

(** Inside the inner loop the variable [c] is the number of unpicked
    rows, as long as nobody else changes the table. *)
Definition fill_inv (st : Maintain.state) : Prop :=
  match Maintain.at_ st with
  | Maintain.Filling c
  | Maintain.Searching c _
  | Maintain.Inserting c _
  | Maintain.Sleeping (Maintain.SearchBackoff c) =>
    c = fst (Maintain.countUnpicked None (Maintain.db st))
  | _ => True
  end.

(** The context of a running search is not done, and the loop is not at
    the back-off of line 109. *)
Definition search_quiet (cfg : Maintain.config) (st : Maintain.state) : Prop :=
  match Maintain.at_ st with
  | Maintain.Searching c g =>
    Search.ctxErr g = None /\
    search_inv (Maintain.workers cfg) (Maintain.suffix cfg) g
  | Maintain.Sleeping (Maintain.SearchBackoff _) => False
  | _ => True
  end.

Definition is_search_failed (eff : Maintain.effect) : bool :=
  match eff with
  | Maintain.Log (Maintain.SearchFailed _) => true
  | _ => false
  end.

(* ===================================================================== *)
(** ** Concrete runs *)
(* ===================================================================== *)

Module Scenario.

Import Search.

(** An account whose key arrays repeat one byte. *)
Definition acc (b : byte) : types.Account :=
  types.mkAccount (repeat b 32) (repeat b 64).

Definition key (b : byte) : Keypair :=
  mkKeypair (base58.Encode (repeat b 64)) (base58.Encode (repeat b 32)).

(** One worker: the caller trims, spawns and waits; the worker draws
    an account, sends it; the caller receives. *)
Definition one_worker : list event :=
  [Main false; Main false; Main false;
   Worker 0 (acc x00); Worker 0 (acc x00); Worker 0 (acc x00);
   Main false].

(** The caller has spawned one worker, which has passed its check of
    [ctx.Done()]; no account has been drawn yet. *)
Definition before_cancel : list event :=
  [Main false; Main false; Worker 0 (acc x01)].

(** ... then the worker draws a matching account and sends it, and the
    caller reaches its [select] with both cases ready. *)
Definition after_cancel : list event :=
  [Worker 0 (acc x01); Worker 0 (acc x01); Main false; Main true].

(** The context is cancelled before the caller reaches its [select]. *)
Definition cancelled_early : list event :=
  [Main false; Cancel Canceled; Main false; Main false; Main false].

(** Three workers, each of which draws a matching account: the first
    sends, the caller receives, the second sends into the free slot,
    the third stands at its send. *)
Definition three_matches : list event :=
  [Main false; Main false; Main false; Main false; Main false;
   Worker 0 (acc x01); Worker 0 (acc x01); Worker 0 (acc x01);
   Worker 1 (acc x02); Worker 1 (acc x02);
   Worker 2 (acc x03); Worker 2 (acc x03);
   Main false;
   Worker 1 (acc x02)].

(** An endless fair schedule for one worker. *)
Definition round_robin (n : nat) : event :=
  if Nat.even n then Main false else Worker 0 (acc x00).

End Scenario.

Module PoolScenario.

Import Maintain.

Definition row (id pub : string) (picked : bool) : TokenKey :=
  mkTokenKey id ("priv-" +:+ pub) pub picked 1700000000.

(** Five unpicked rows and a picked one. *)
Definition five_unpicked : table :=
  [row "id1" "Aponz" false; row "id2" "Bponz" false; row "id3" "Cponz" true;
   row "id4" "Dponz" false; row "id5" "Eponz" false; row "id6" "Fponz" false].

Definition cfg5 : config := mkConfig 5 "ponz" Minute 100.

(** Target 2, empty suffix, one worker. *)
Definition cfg2 : config := mkConfig 2 "" Minute 1.

Definition ok : env := mkEnv None "6ba7b810-9dad-11d1-80b4-00c04fd430c8" 1700000001.
Definition down : env :=
  mkEnv (Some (StoreError "connection refused"))
        "6ba7b811-9dad-11d1-80b4-00c04fd430c8" 1700000002.

(** From the check to the end of one search. *)
Definition one_search : list input :=
  [Tick ok; Tick ok] ++ map InSearch Scenario.one_worker.

(** One key is found and stored, and counted. *)
Definition one_key_added : list input :=
  one_search ++ [Tick ok; Tick ok; Tick ok].

Definition one_unpicked : table := [row "id1" "Aponz" false].

(** One key is found and stored; the count after it fails. *)
Definition recount_fails : list input :=
  one_search ++ [Tick ok; Tick ok; Tick down].

(** Target 3, empty suffix, one worker. *)
Definition cfg3 : config := mkConfig 3 "" Minute 1.

Definition search_with (b : byte) : list input :=
  map InSearch
    [Search.Main false; Search.Main false; Search.Main false;
     Search.Worker 0 (Scenario.acc b); Search.Worker 0 (Scenario.acc b);
     Search.Worker 0 (Scenario.acc b); Search.Main false].

(** One round of the inner loop: search, insert, recount. *)
Definition add_key (b : byte) (id : string) (t : Z) : list input :=
  [Tick ok] ++ search_with b ++
  [Tick ok; Tick (mkEnv None id t); Tick ok].

(** A whole episode from an empty table: check, three keys, loop exit. *)
Definition fill_three : list input :=
  [Tick ok] ++
  add_key x01 "id1" 1700000001 ++
  add_key x02 "id2" 1700000002 ++
  add_key x03 "id3" 1700000003 ++
  [Tick ok].

End PoolScenario.

(* ===================================================================== *)
(** * Properties *)
(* ===================================================================== *)

(** ** The library models on known values *)

Example TrimSpace_blanks : strings.TrimSpace "  ponz " = "ponz".
Proof. reflexivity. Qed.

Example TrimSpace_blank : strings.TrimSpace " " = "".
Proof. reflexivity. Qed.

(** No-break space (C2 A0), "ab", em space (E2 80 83). *)
Example TrimSpace_unicode :
  strings.TrimSpace (stringOf [194; 160; 97; 98; 226; 128; 131]) = "ab".
Proof. reflexivity. Qed.

Example HasSuffix_yes : strings.HasSuffix "7xKponz" "ponz" = true.
Proof. reflexivity. Qed.

Example HasSuffix_case : strings.HasSuffix "7xKPonz" "ponz" = false.
Proof. reflexivity. Qed.

Example HasSuffix_short : strings.HasSuffix "onz" "ponz" = false.
Proof. reflexivity. Qed.

Example Encode_hello :
  base58.Encode (String.list_byte_of_string "Hello World!") = "2NEpo7TZRRrLZSi2U".
Proof. reflexivity. Qed.

Example Encode_leading_zeros :
  base58.Encode [x00; x00; x28; x7f; xb4; xcd] = "11233QC4".
Proof. reflexivity. Qed.

Example Encode_zero_key :
  base58.Encode (repeat x00 32) = "11111111111111111111111111111111".
Proof. reflexivity. Qed.

(** ** Strings *)

Section StringFacts.

Lemma length_append (p t : string) :
  String.length (p +:+ t) = (String.length p + String.length t)%nat.
Proof. induction p as [|c p IH]; simpl; [reflexivity | now rewrite IH]. Qed.

Lemma substring_all (s : string) :
  String.substring 0 (String.length s) s = s.
Proof. induction s as [|c s IH]; simpl; [reflexivity | now rewrite IH]. Qed.

Lemma substring_append_tail (p t : string) :
  String.substring (String.length p) (String.length t) (p +:+ t) = t.
Proof.
  induction p as [|c p IH]; simpl; [apply substring_all | exact IH].
Qed.

Lemma substring_split (n : nat) (s : string) :
  (n <= String.length s)%nat ->
  s = String.substring 0 n s +:+ String.substring n (String.length s - n) s.
Proof.
  revert s; induction n as [|n IH]; intros s Hn.
  - simpl. rewrite Nat.sub_0_r, substring_all. now destruct s.
  - destruct s as [|c s]; simpl in *; [lia |].
    change (String c s =
            String c (String.substring 0 n s +:+
                      String.substring n (String.length s - n) s)).
    f_equal. apply IH. lia.
Qed.

Lemma len_nonneg (s : string) : 0 <= len s.
Proof. unfold len. lia. Qed.

Lemma len_append (p t : string) : len (p +:+ t) = len p + len t.
Proof. unfold len. rewrite length_append. lia. Qed.

Lemma slice_tail (p t : string) :
  slice (p +:+ t) (len (p +:+ t) - len t) (len (p +:+ t)) = t.
Proof.
  unfold slice. rewrite len_append.
  replace (Z.to_nat (len p + len t - len t)) with (String.length p)
    by (unfold len; lia).
  replace (Z.to_nat (len p + len t - (len p + len t - len t)))
    with (String.length t) by (unfold len; lia).
  apply substring_append_tail.
Qed.

Lemma slice_tail_split (s : string) (i : Z) :
  0 <= i <= len s ->
  s = slice s 0 i +:+ slice s i (len s).
Proof.
  intros Hi. unfold slice.
  replace (Z.to_nat (i - 0)) with (Z.to_nat i) by lia.
  replace (Z.to_nat (len s - i)) with (String.length s - Z.to_nat i)%nat
    by (unfold len; lia).
  change (Z.to_nat 0) with 0%nat.
  apply substring_split. unfold len in Hi. lia.
Qed.

(** [strings.HasSuffix] decides the suffix relation. *)
Lemma HasSuffix_ends_with (s t : string) :
  strings.HasSuffix s t = true <-> ends_with s t.
Proof.
  unfold strings.HasSuffix, ends_with. split.
  - intros H. apply andb_true_iff in H as [Hle Heq].
    apply Z.leb_le in Hle. apply String.eqb_eq in Heq.
    exists (slice s 0 (len s - len t)).
    pose proof (len_nonneg t) as Ht.
    pose proof (slice_tail_split s (len s - len t) ltac:(lia)) as Hs.
    now rewrite Heq in Hs.
  - intros [p ->]. apply andb_true_iff. split.
    + apply Z.leb_le. rewrite len_append. pose proof (len_nonneg p). lia.
    + rewrite slice_tail. apply String.eqb_refl.
Qed.

Lemma HasSuffix_empty (s : string) : strings.HasSuffix s "" = true.
Proof.
  apply HasSuffix_ends_with. exists s.
  induction s as [|c s IH]; [reflexivity |].
  change (String c s = String c (s +:+ "")). now f_equal.
Qed.

End StringFacts.

(** ** base58 output and TrimSpace *)

Section Base58Facts.

Lemma get_In (n : nat) (s : string) (c : ascii) :
  String.get n s = Some c -> In c (String.list_ascii_of_string s).
Proof.
  revert n; induction s as [|a s IH]; intros n H; [discriminate |].
  destruct n as [|n]; simpl in *.
  - left. congruence.
  - right. eapply IH, H.
Qed.

Lemma encodeDigit_base58 (d : Z) : isBase58 (base58.encodeDigit d) = true.
Proof.
  unfold base58.encodeDigit, isBase58.
  destruct (String.get (Z.to_nat d) base58.alphabet) as [c|] eqn:E;
    [| reflexivity].
  apply existsb_exists. exists c. split.
  - eapply get_In, E.
  - apply Ascii.eqb_refl.
Qed.

Lemma isBase58_plain (c : ascii) : isBase58 c = true -> isPlain c = true.
Proof.
  unfold isBase58. intros H. apply existsb_exists in H as (a & Ha & Hca).
  apply Ascii.eqb_eq in Hca. subst a.
  assert (Hall : forallb isPlain (String.list_ascii_of_string base58.alphabet) = true)
    by (vm_compute; reflexivity).
  rewrite forallb_forall in Hall. now apply Hall.
Qed.

Lemma allChars_charsToString (P : ascii -> bool) (cs : list ascii) :
  allChars P (base58.charsToString cs) = forallb P cs.
Proof. induction cs as [|c cs IH]; simpl; [reflexivity | now rewrite IH]. Qed.

Lemma allChars_append (P : ascii -> bool) (p t : string) :
  allChars P (p +:+ t) = allChars P p && allChars P t.
Proof.
  induction p as [|c p IH]; [reflexivity |].
  change (allChars P (String c (p +:+ t)) = P c && allChars P p && allChars P t).
  simpl. rewrite IH. now rewrite andb_assoc.
Qed.

Lemma allChars_impl (P Q : ascii -> bool) (s : string) :
  (forall c, P c = true -> Q c = true) ->
  allChars P s = true -> allChars Q s = true.
Proof.
  intros HPQ. induction s as [|c s IH]; simpl; [reflexivity |].
  intros H. apply andb_true_iff in H as [Hc Hs].
  apply andb_true_iff. split; auto.
Qed.

(** [base58.Encode] writes characters of its alphabet only. *)
Lemma Encode_base58 (bin : list byte) :
  allChars isBase58 (base58.Encode bin) = true.
Proof.
  unfold base58.Encode. rewrite allChars_charsToString.
  apply forallb_forall. intros c Hc.
  apply in_app_or in Hc as [Hc | Hc].
  - apply repeat_spec in Hc. subst c. apply encodeDigit_base58.
  - apply in_map_iff in Hc as (d & <- & _). apply encodeDigit_base58.
Qed.

Lemma ends_with_allChars (P : ascii -> bool) (s t : string) :
  ends_with s t -> allChars P s = true -> allChars P t = true.
Proof.
  intros [p ->]. rewrite allChars_append.
  intros H. now apply andb_true_iff in H as [_ H].
Qed.

Lemma allChars_get (P : ascii -> bool) (s : string) (n : nat) (c : ascii) :
  allChars P s = true -> String.get n s = Some c -> P c = true.
Proof.
  revert n; induction s as [|a s IH]; intros n Hs Hn; [discriminate |].
  simpl in Hs. apply andb_true_iff in Hs as [Ha Hs].
  destruct n as [|n]; simpl in Hn.
  - congruence.
  - eapply IH; eauto.
Qed.

Lemma get_in_range (s : string) (n : nat) :
  (n < String.length s)%nat -> exists c, String.get n s = Some c.
Proof.
  revert n; induction s as [|a s IH]; intros n Hn; simpl in Hn; [lia |].
  destruct n as [|n]; simpl; [eauto |]. apply IH. lia.
Qed.

Lemma byteAt_plain (s : string) (i : Z) :
  allChars isPlain s = true -> 0 <= i < len s ->
  (utf8.RuneSelf <=? byteAt s i) = false /\
  strings.asciiSpace (byteAt s i) = false.
Proof.
  intros Hs Hi. unfold byteAt.
  destruct (get_in_range s (Z.to_nat i)) as [c Hc]; [unfold len in Hi; lia |].
  rewrite Hc. pose proof (allChars_get _ _ _ _ Hs Hc) as Hp.
  unfold isPlain in Hp. apply andb_true_iff in Hp as [H1 H2].
  apply Z.ltb_lt in H1. apply negb_true_iff in H2.
  split; [apply Z.leb_gt; exact H1 | exact H2].
Qed.

(** A string of plain ASCII bytes is left as it is by [TrimSpace]. *)
Lemma TrimSpace_plain (s : string) :
  allChars isPlain s = true -> strings.TrimSpace s = s.
Proof.
  intros Hs. destruct s as [|a s]; [reflexivity |].
  set (t := String a s) in *.
  assert (Hlen : 1 <= len t) by (unfold len, t; simpl; lia).
  unfold strings.TrimSpace.
  assert (E1 : strings.trimStart (S (String.length t)) t 0 = inl 0).
  { cbn [strings.trimStart].
    destruct (byteAt_plain t 0 Hs ltac:(lia)) as [H1 H2].
    rewrite H1, H2.
    destruct (len t <=? 0) eqn:E; [apply Z.leb_le in E; lia | reflexivity]. }
  rewrite E1.
  assert (E2 : strings.trimStop (S (String.length t)) t 0 (len t) = inl (len t)).
  { cbn [strings.trimStop].
    destruct (byteAt_plain t (len t - 1) Hs ltac:(lia)) as [H1 H2].
    rewrite H1, H2.
    destruct (len t <=? 0) eqn:E; [apply Z.leb_le in E; lia | reflexivity]. }
  rewrite E2. unfold slice.
  replace (Z.to_nat (len t - 0)) with (String.length t) by (unfold len; lia).
  apply substring_all.
Qed.

(** A suffix that some encoded key ends with is not changed by the
    [TrimSpace] of line 47. *)
Lemma TrimSpace_suffix_of_key (bin : list byte) (s : string) :
  strings.HasSuffix (base58.Encode bin) s = true ->
  strings.TrimSpace s = s.
Proof.
  intros H. apply HasSuffix_ends_with in H.
  apply TrimSpace_plain.
  apply (allChars_impl isBase58); [apply isBase58_plain |].
  eapply ends_with_allChars; [exact H | apply Encode_base58].
Qed.

End Base58Facts.

(** ** generateVanityKeypair: what every state satisfies *)

Section SearchInvariant.

Variable workers : Z.
Variable s : string.

Lemma search_inv_enter : search_inv workers s (Search.enter s).
Proof.
  constructor; simpl; try discriminate; try tauto; try lia.
Qed.

Lemma lookup_set_pc i pc st j x :
  Search.pool (Search.set_pc i pc st) !! j = Some x ->
  (i = j /\ pc = x) \/ Search.pool st !! j = Some x.
Proof.
  simpl. intros H. apply list_lookup_insert_Some in H. tauto.
Qed.

Lemma search_inv_worker i acc st st' :
  search_inv workers s st ->
  Search.worker i acc st = Some st' ->
  search_inv workers s st'.
Proof.
  intros I H. unfold Search.worker in H.
  destruct (Search.pool st !! i) as [pc|] eqn:Ei; [| discriminate].
  assert (Hne : Search.caller st <> Search.MEntry).
  { intros E. destruct (inv_entry _ _ _ I E) as [_ Hp].
    rewrite Hp, lookup_nil in Ei. discriminate. }
  destruct pc as [| | kp |]; [| | | discriminate].
  - (* at the select *)
    destruct (Search.ctxErr st); inversion H; subst st'; clear H;
      destruct I; constructor; simpl in *; auto;
      try (intros j kp Hj; apply list_lookup_insert_Some in Hj;
           destruct Hj as [(_ & ? & _) | (_ & Hj)]; [discriminate | eauto]);
      try (rewrite length_insert; auto);
      try (intros E; contradiction).
    all: intros j Hj; rewrite length_insert; auto.
  - (* the account is drawn and tested *)
    destruct (strings.HasSuffix _ _) eqn:Em; inversion H; subst st'; clear H;
      pose proof (inv_suffix _ _ _ I) as Hs;
      destruct I; constructor; simpl in *; auto;
      try (intros E; contradiction);
      try (intros j Hj; rewrite length_insert; auto);
      try (rewrite length_insert; auto).
    + intros j kp Hj. apply list_lookup_insert_Some in Hj.
      destruct Hj as [(_ & E & _) | (_ & Hj)]; [| eauto].
      inversion E; subst kp. unfold matches; simpl.
      rewrite <- Em. f_equal.
      destruct (Search.caller st); congruence.
    + intros j kp Hj. apply list_lookup_insert_Some in Hj.
      destruct Hj as [(_ & ? & _) | (_ & Hj)]; [discriminate | eauto].
  - (* the send *)
    destruct (length (Search.found st) <? Search.foundCap)%nat eqn:El;
      [| discriminate].
    apply Nat.ltb_lt in El.
    inversion H; subst st'; clear H.
    pose proof (inv_send _ _ _ I _ _ Ei) as Hkp.
    destruct I; constructor; simpl in *; auto;
      try (intros E; contradiction);
      try (intros j Hj; rewrite length_insert; auto);
      try (rewrite length_insert; auto).
    + intros kp' Hin. apply in_app_or in Hin as [Hin | [<- | []]]; auto.
    + intros j kp' Hj. apply list_lookup_insert_Some in Hj.
      destruct Hj as [(_ & ? & _) | (_ & Hj)]; [discriminate | eauto].
    + rewrite length_app. simpl. unfold Search.foundCap in *. lia.
Qed.

Lemma search_inv_body pick st st' :
  search_inv workers s st ->
  Search.body workers pick st = Some st' ->
  search_inv workers s st'.
Proof.
  intros I H. unfold Search.body in H.
  pose proof (inv_suffix _ _ _ I) as Hs.
  destruct (Search.caller st) as [| i | | kp err] eqn:Ec; [| | | discriminate].
  - (* entry: the suffix is trimmed, the channel made *)
    inversion H; subst st'; clear H.
    destruct (inv_entry _ _ _ I Ec) as [Hf Hp].
    destruct I; constructor; simpl in *; try discriminate; auto.
    + now rewrite Hs.
    + contradiction.
    + unfold Search.foundCap. lia.
    + intros i E. inversion E; subst i. rewrite Hp. simpl. lia.
  - (* the spawn loop *)
    destruct (inv_spawn _ _ _ I _ Ec) as [Hi Hl].
    destruct (i <? workers) eqn:El; inversion H; subst st'; clear H.
    + apply Z.ltb_lt in El.
      destruct I; constructor; simpl in *; try discriminate; auto.
      * intros j kp Hj. apply lookup_snoc_Some in Hj.
        destruct Hj as [[_ Hj] | [_ ?]]; [eauto | discriminate].
      * intros j E. inversion E; subst j. rewrite length_app. simpl. lia.
      * rewrite length_app. simpl. lia.
    + destruct I; constructor; simpl in *; try discriminate; auto.
  - (* the select *)
    assert (Hret_found : forall kp rest, Search.found st = kp :: rest ->
              search_inv workers s
                (Search.mkCall (Search.suffix st) (Search.ctxErr st) rest
                   (Search.pool st) (Search.MReturn kp None) (Search.draws st))).
    { intros kp rest Ef.
      destruct I; constructor; simpl in *; try discriminate; auto.
      - intros kp' Hin. apply inv_found0. rewrite Ef. now right.
      - intros kp' E. inversion E; subst kp'. apply inv_found0.
        rewrite Ef. now left.
      - rewrite Ef in inv_cap0. simpl in inv_cap0. lia. }
    assert (Hret_done : forall e, Search.ctxErr st = Some e ->
              search_inv workers s
                (Search.set_caller
                   (Search.MReturn zeroKeypair (Some (ContextError e))) st)).
    { intros e Ee.
      destruct I; constructor; simpl in *; try discriminate; auto.
      intros kp e' E. inversion E; subst. eauto. }
    destruct (Search.ctxErr st) as [e|] eqn:Ee,
             (Search.found st) as [|kp rest] eqn:Ef;
      inversion H; subst st'; clear H; auto.
    destruct pick; auto.
Qed.

Lemma search_inv_step e st st' :
  search_inv workers s st ->
  Search.step workers e st = Some st' ->
  search_inv workers s st'.
Proof.
  intros I H. destruct e as [err | pick | i acc]; simpl in H.
  - destruct (Search.ctxErr st) eqn:Ee; inversion H; subst st'; clear H; auto.
    destruct I; constructor; simpl in *; auto.
    intros kp e E. destruct (inv_err0 _ _ E) as (? & ce & ? & ?). congruence.
  - eapply search_inv_body; eauto.
  - eapply search_inv_worker; eauto.
Qed.

Lemma search_inv_run sched st st' :
  search_inv workers s st ->
  Search.run workers sched st = Some st' ->
  search_inv workers s st'.
Proof.
  revert st; induction sched as [|e sched IH]; simpl; intros st I H.
  - congruence.
  - destruct (Search.step workers e st) as [st1|] eqn:E; [| discriminate].
    eapply IH; [| exact H]. eapply search_inv_step; eauto.
Qed.

Lemma search_inv_after sched n :
  search_inv workers s (Search.after workers sched s n).
Proof.
  induction n as [|n IH]; simpl; [apply search_inv_enter |].
  unfold Search.step_or_stay.
  destruct (Search.step workers (sched n) _) eqn:E; [| exact IH].
  eapply search_inv_step; eauto.
Qed.

End SearchInvariant.

(** ** generateVanityKeypair: results *)

Section SearchResults.

Import Search.

(** Once the caller has returned and the channel is full, a worker at
    its send stays there whatever happens. *)
Lemma full_channel_blocks_forever (workers : Z) (st : call) (i : nat) (kp : Keypair) :
  (exists kp0 err, caller st = MReturn kp0 err) ->
  length (found st) = foundCap ->
  pool st !! i = Some (WSend kp) ->
  forall sched st', run workers sched st = Some st' ->
    pool st' !! i = Some (WSend kp) /\
    (exists kp0 err, caller st' = MReturn kp0 err) /\
    length (found st') = foundCap.
Proof.
  intros Hret Hfull Hi sched. revert st Hret Hfull Hi.
  induction sched as [|e sched IH]; simpl; intros st Hret Hfull Hi st' H.
  - inversion H; subst. auto.
  - destruct (step workers e st) as [st1|] eqn:E; [| discriminate].
    apply (IH st1); [| | | exact H]; clear IH H;
      destruct Hret as (kp0 & err & Hc);
      destruct e as [ce | pick | j acc]; simpl in E.
    all: try (unfold body in E; rewrite Hc in E; discriminate).
    all: try (destruct (ctxErr st); inversion E; subst st1; simpl; eauto; fail).
    all: unfold worker in E;
      destruct (pool st !! j) as [[| | kp' |]|] eqn:Ej; try discriminate;
      [ destruct (ctxErr st); inversion E; subst st1; clear E
      | destruct (strings.HasSuffix _ _); inversion E; subst st1; clear E
      | rewrite Hfull in E; unfold foundCap in E; simpl in E; discriminate ];
      simpl; eauto.
    all: rewrite list_lookup_insert_ne; [exact Hi | congruence].
Qed.

(** C1, as amended: every key pair that a call
    [generateVanityKeypair(ctx, s, workers)] returns with a nil error has
    a public encoding that ends with [strings.TrimSpace(s)], the suffix
    after line 47 (with [s] itself whenever trimming leaves [s] as it
    is), whatever the schedule, the accounts drawn and the context do. *)
Theorem returned_key_ends_with_trimmed_suffix
    (s : string) (workers : Z) (sched : list event) (st : call) (kp : Keypair) :
  run workers sched (enter s) = Some st ->
  caller st = MReturn kp None ->
  strings.HasSuffix (Pub kp) (strings.TrimSpace s) = true /\
  ends_with (Pub kp) (strings.TrimSpace s) /\
  (strings.TrimSpace s = s -> ends_with (Pub kp) s).
Proof.
  intros Hrun Hret.
  pose proof (search_inv_run workers s sched _ _
                (search_inv_enter workers s) Hrun) as I.
  pose proof (inv_ok _ _ _ I kp Hret) as Hm. unfold matches in Hm.
  split; [exact Hm |].
  split; [now apply HasSuffix_ends_with |].
  intros E. rewrite E in Hm. now apply HasSuffix_ends_with.
Qed.

Lemma returned_key_ends_with_trimmed_suffix_witness :
  ends_with (Pub (Scenario.key x00)) "1".
Proof.
  refine (proj1 (proj2 (returned_key_ends_with_trimmed_suffix
                   " 1 " 1 Scenario.one_worker _ (Scenario.key x00) _ _)));
    vm_compute; reflexivity.
Defined.

(** C1 as stated fails: for the suffix [" 1"] (a blank, then 1) the
    call compares with ["1"] and returns a key whose encoding ends with
    ["1"] and not with [" 1"]. *)
Lemma returned_key_may_miss_untrimmed_suffix :
  ~ (forall (s : string) (workers : Z) (sched : list event) (st : call)
            (kp : Keypair),
       run workers sched (enter s) = Some st ->
       caller st = MReturn kp None ->
       ends_with (Pub kp) s).
Proof.
  intros H.
  assert (E : run 1 Scenario.one_worker (enter " 1") =
              Some (mkCall "1" None [] [WDone]
                           (MReturn (Scenario.key x00) None) 1))
    by (vm_compute; reflexivity).
  specialize (H " 1" 1 Scenario.one_worker _ (Scenario.key x00) E eq_refl).
  apply HasSuffix_ends_with in H. vm_compute in H. discriminate.
Qed.

Lemma cancelled_idle_step (workers : Z) (e : ctxError) (ev : event)
    (st st' : call) :
  cancelled_idle e st ->
  step workers ev st = Some st' ->
  cancelled_idle e st'.
Proof.
  intros (Hc & Hf & Hi & Hr) H. unfold cancelled_idle.
  destruct ev as [ce | pick | i acc]; simpl in H.
  - rewrite Hc in H. inversion H; subst st'. auto.
  - unfold body in H.
    destruct (caller st) as [| j | | kp err] eqn:Ec; [| | | discriminate].
    + inversion H; subst st'; simpl.
      split; [| split; [| split]]; auto. discriminate.
    + destruct (j <? workers); inversion H; subst st'; simpl;
        (split; [| split; [| split]]); auto; try discriminate.
      intros n pc Hn. apply lookup_snoc_Some in Hn as [[_ Hn] | [_ <-]];
        [eauto | now left].
    + rewrite Hc, Hf in H. inversion H; subst st'; simpl.
      split; [| split; [| split]]; auto.
      intros kp err E. inversion E; subst. auto.
  - unfold worker in H.
    destruct (pool st !! i) as [pc|] eqn:Ei; [| discriminate].
    destruct (Hi _ _ Ei) as [-> | ->]; [| discriminate].
    rewrite Hc in H. inversion H; subst st'; simpl.
    split; [| split; [| split]]; auto.
    intros n pc Hn. apply list_lookup_insert_Some in Hn
      as [(_ & <- & _) | (_ & Hn)]; [now right | eauto].
Qed.

Lemma cancelled_idle_run (workers : Z) (e : ctxError) (sched : list event)
    (st st' : call) :
  cancelled_idle e st ->
  run workers sched st = Some st' ->
  cancelled_idle e st'.
Proof.
  revert st; induction sched as [|ev sched IH]; simpl; intros st C H.
  - now inversion H; subst.
  - destruct (step workers ev st) as [st1|] eqn:E; [| discriminate].
    eapply IH; [| exact H]. eapply cancelled_idle_step; eauto.
Qed.

(** C4, as amended: when the context is cancelled while the channel is
    empty and no worker is between its check of [ctx.Done()] and its
    send, every return of the call gives [Keypair{}] and the context's
    error; when the caller's [select] runs with the context done and no
    key in the channel, the call returns [Keypair{}] with the context's
    error; and a call that returns an error returns [Keypair{}] with it,
    the context being done. *)
Theorem cancelled_call_returns_zero_keypair
    (s : string) (workers : Z) (sched : list event) (st : call) :
  run workers sched (enter s) = Some st ->
  (forall kp err, caller st = MReturn kp (Some err) ->
     kp = zeroKeypair /\
     exists e, err = ContextError e /\ ctxErr st = Some e) /\
  (forall e, caller st = MSelect -> ctxErr st = Some e -> found st = [] ->
     forall pick, exists st',
       step workers (Main pick) st = Some st' /\
       caller st' = MReturn zeroKeypair (Some (ContextError e))) /\
  (ctxErr st = None -> found st = [] -> idle st ->
   (forall kp err, caller st <> MReturn kp err) ->
   forall e later st2 kp err,
     run workers (Cancel e :: later) st = Some st2 ->
     caller st2 = MReturn kp err ->
     kp = zeroKeypair /\ err = Some (ContextError e)).
Proof.
  intros Hrun.
  pose proof (search_inv_run workers s sched _ _
                (search_inv_enter workers s) Hrun) as I.
  split; [| split].
  - intros kp err Hc. exact (inv_err _ _ _ I kp err Hc).
  - intros e Hc He Hf pick. simpl. unfold body.
    rewrite Hc, He, Hf. eexists. split; reflexivity.
  - intros Hc Hf Hi Hn e later st2 kp err H Hr.
    simpl in H. rewrite Hc in H.
    eapply cancelled_idle_run in H.
    + destruct H as (_ & _ & _ & H). now apply H.
    + split; [| split; [| split]]; auto.
      intros kp0 err0 E. simpl in E. now destruct (Hn _ _ E).
Qed.

Lemma cancelled_call_returns_zero_keypair_witness :
  exists st',
    step 2 (Main true)
      (mkCall "ponz" (Some Canceled) [] [WSelect; WSelect] MSelect 0)
    = Some st' /\
    caller st' = MReturn zeroKeypair (Some (ContextError Canceled)).
Proof.
  refine (proj1 (proj2 (cancelled_call_returns_zero_keypair
                          "ponz" 2 Scenario.cancelled_early _ _))
                Canceled _ _ _ true);
    vm_compute; reflexivity.
Defined.

(** C4 as stated fails: the context is cancelled while no worker has
    found a match, a worker that had passed its check of [ctx.Done()]
    then draws a matching account and sends it, and the [select] of
    the caller, with both cases ready, takes the key. *)
Lemma cancel_before_match_may_return_key :
  ~ (forall (s : string) (workers : Z) (before later : list event)
            (e : ctxError) (st1 st2 : call) (kp : Keypair)
            (err : option error),
       run workers before (enter s) = Some st1 ->
       no_match_yet st1 ->
       run workers (Cancel e :: later) st1 = Some st2 ->
       caller st2 = MReturn kp err ->
       err <> None /\ kp = zeroKeypair).
Proof.
  intros H.
  assert (E1 : run 1 Scenario.before_cancel (enter "") =
               Some (mkCall "" None [] [WSample] (MSpawn 1) 0))
    by (vm_compute; reflexivity).
  assert (E2 : run 1 (Cancel Canceled :: Scenario.after_cancel)
                 (mkCall "" None [] [WSample] (MSpawn 1) 0) =
               Some (mkCall "" (Some Canceled) [] [WDone]
                            (MReturn (Scenario.key x01) None) 1))
    by (vm_compute; reflexivity).
  assert (N : no_match_yet (mkCall "" None [] [WSample] (MSpawn 1) 0)).
  { split; [reflexivity |]. intros [|i] kp; simpl; discriminate. }
  destruct (H "" 1 Scenario.before_cancel Scenario.after_cancel Canceled
              _ _ (Scenario.key x01) None E1 N E2 eq_refl) as [Hne _].
  now apply Hne.
Qed.

(** C7, the code at three workers and the empty suffix: the caller has
    returned the first key, the second key fills the channel, and the
    third worker stands at its send in every later state, also after
    the context is cancelled. *)
Theorem third_match_blocks_its_worker :
  exists st,
    run 3 Scenario.three_matches (enter "") = Some st /\
    caller st = MReturn (Scenario.key x01) None /\
    found st = [Scenario.key x02] /\
    pool st = [WDone; WDone; WSend (Scenario.key x03)] /\
    forall sched st', run 3 sched st = Some st' ->
      pool st' !! 2%nat = Some (WSend (Scenario.key x03)).
Proof.
  eexists. split; [vm_compute; reflexivity |].
  split; [reflexivity |]. split; [reflexivity |]. split; [reflexivity |].
  intros sched st' H.
  eapply full_channel_blocks_forever in H as [H _]; [exact H | | |].
  - simpl. eauto.
  - reflexivity.
  - reflexivity.
Qed.

End SearchResults.

(** ** The older variant's suffix test *)

(** C10: the guarded tail comparison of the older variant never slices
    out of range and gives the value of [strings.HasSuffix]; both hold
    exactly when the public encoding ends with the suffix. *)
Theorem tailMatch_is_HasSuffix (pub suffix : string) :
  Older.tailMatch pub suffix = Some (strings.HasSuffix pub suffix) /\
  (Older.tailMatch pub suffix = Some true <-> ends_with pub suffix).
Proof.
  assert (E : Older.tailMatch pub suffix = Some (strings.HasSuffix pub suffix)).
  { unfold Older.tailMatch, strings.HasSuffix, Older.sliceFrom.
    pose proof (len_nonneg suffix) as Hs.
    destruct (len suffix <=? len pub) eqn:El; [| reflexivity].
    apply Z.leb_le in El.
    destruct ((len pub - len suffix <? 0) || (len pub <? len pub - len suffix))
      eqn:Eo; [| reflexivity].
    apply orb_true_iff in Eo as [Eo | Eo]; apply Z.ltb_lt in Eo; lia. }
  split; [exact E |].
  rewrite E, <- HasSuffix_ends_with.
  split; [now intros [= ->] | now intros ->].
Qed.

(** ** The key store *)

Section StoreFacts.

Import Maintain.

Lemma hasPublicKey_In (pub : string) (db : table) :
  hasPublicKey pub db = true <-> In pub (map PublicKey db).
Proof.
  unfold hasPublicKey. rewrite existsb_exists, in_map_iff.
  split; intros (r & H1 & H2).
  - apply String.eqb_eq in H2. eauto.
  - exists r. split; [exact H2 |]. now apply String.eqb_eq.
Qed.

Lemma rowsWith_absent (pub : string) (db : table) :
  ~ In pub (map PublicKey db) -> rowsWith pub db = [].
Proof.
  unfold rowsWith. induction db as [|r db IH]; simpl; [reflexivity |].
  intros H. destruct (String.eqb_spec (PublicKey r) pub) as [E | _].
  - exfalso. apply H. now left.
  - apply IH. intros Hin. apply H. now right.
Qed.

Lemma rowsWith_unique (pub : string) (db : table) :
  uniquePublicKeys db -> In pub (map PublicKey db) ->
  length (rowsWith pub db) = 1%nat.
Proof.
  unfold uniquePublicKeys, rowsWith.
  induction db as [|r db IH]; simpl; [tauto |].
  intros Hnd Hin. apply NoDup_cons in Hnd as [Hr Hnd].
  destruct (String.eqb_spec (PublicKey r) pub) as [E | Hne].
  - subst pub. simpl. f_equal.
    change (length (rowsWith (PublicKey r) db) = 0%nat).
    rewrite rowsWith_absent; [reflexivity |].
    intros Hin'. apply Hr. now apply list_elem_of_In.
  - destruct Hin as [E | Hin]; [contradiction | now apply IH].
Qed.

Lemma uniquePublicKeys_snoc (db : table) (r : TokenKey) :
  uniquePublicKeys db -> ~ In (PublicKey r) (map PublicKey db) ->
  uniquePublicKeys (db ++ [r]).
Proof.
  unfold uniquePublicKeys. intros Hnd Hin.
  rewrite map_app. simpl. apply NoDup_app. split; [exact Hnd |].
  split.
  - intros x Hx Hx'. apply list_elem_of_In in Hx.
    apply list_elem_of_singleton in Hx'. subst x. contradiction.
  - apply NoDup_singleton.
Qed.

(** C3: [Create] with [ON CONFLICT (public_key) DO NOTHING], as the
    loop calls it with [IsPicked: false]: it returns no error; a row
    whose public key is stored leaves the table as it is; otherwise the
    row is added with [IsPicked = false]; in both cases the table then
    holds exactly one row with that public key, and inserting that
    public key again changes nothing and returns no error. *)
Theorem insert_is_idempotent_on_public_key
    (now : Z) (id : string) (kp : Keypair) (db : table) :
  uniquePublicKeys db ->
  let newKey := mkTokenKey id (Priv kp) (Pub kp) false 0 in
  let db' := fst (createOnConflictDoNothing None now newKey db) in
  snd (createOnConflictDoNothing None now newKey db) = None /\
  (hasPublicKey (Pub kp) db = true -> db' = db) /\
  (hasPublicKey (Pub kp) db = false ->
     db' = db ++ [mkTokenKey id (Priv kp) (Pub kp) false now]) /\
  uniquePublicKeys db' /\
  length (rowsWith (Pub kp) db') = 1%nat /\
  (forall now' id' priv',
     createOnConflictDoNothing None now'
       (mkTokenKey id' priv' (Pub kp) false 0) db' = (db', None)).
Proof.
  intros Hu newKey db'. subst newKey db'.
  unfold createOnConflictDoNothing. simpl.
  destruct (hasPublicKey (Pub kp) db) eqn:Eh; simpl.
  - split; [reflexivity |]. split; [reflexivity |].
    split; [discriminate |]. split; [exact Hu |].
    split; [apply rowsWith_unique; [exact Hu | now apply hasPublicKey_In] |].
    intros. now rewrite Eh.
  - assert (Hn : ~ In (Pub kp) (map PublicKey db)).
    { intros Hin. apply hasPublicKey_In in Hin. congruence. }
    set (r := mkTokenKey id (Priv kp) (Pub kp) false now).
    assert (Hu' : uniquePublicKeys (db ++ [r]))
      by (apply uniquePublicKeys_snoc; [exact Hu | exact Hn]).
    assert (Hin' : In (Pub kp) (map PublicKey (db ++ [r]))).
    { rewrite map_app. apply in_or_app. right. now left. }
    split; [reflexivity |]. split; [discriminate |].
    split; [reflexivity |]. split; [exact Hu' |].
    split; [now apply rowsWith_unique |].
    intros. apply hasPublicKey_In in Hin'. now rewrite Hin'.
Qed.

Lemma insert_is_idempotent_on_public_key_witness :
  length (rowsWith "Aponz"
            (fst (createOnConflictDoNothing None 1700000001
                    (mkTokenKey "id7" "priv" "Aponz" false 0)
                    PoolScenario.five_unpicked))) = 1%nat /\
  length (rowsWith "Zponz"
            (fst (createOnConflictDoNothing None 1700000001
                    (mkTokenKey "id7" "priv" "Zponz" false 0)
                    PoolScenario.five_unpicked))) = 1%nat.
Proof.
  assert (Hu : uniquePublicKeys PoolScenario.five_unpicked).
  { unfold uniquePublicKeys. simpl.
    repeat (apply NoDup_cons; split;
            [rewrite list_elem_of_In; simpl; intuition discriminate |]).
    apply NoDup_nil. exact I. }
  split.
  - exact (proj1 (proj2 (proj2 (proj2 (proj2
      (insert_is_idempotent_on_public_key 1700000001 "id7"
         (mkKeypair "priv" "Aponz") PoolScenario.five_unpicked Hu)))))).
  - exact (proj1 (proj2 (proj2 (proj2 (proj2
      (insert_is_idempotent_on_public_key 1700000001 "id7"
         (mkKeypair "priv" "Zponz") PoolScenario.five_unpicked Hu)))))).
Defined.

End StoreFacts.

(** ** maintainUnpickedKeys *)

Section MaintainFacts.

Import Maintain.

Variable cfg : config.

(** C5: in [Checking], a count [c >= target] that comes back without
    an error sends the loop straight to the sleep of line 98, for
    [sleepDur]: the step calls [countUnpicked] and logs, it starts no
    search and creates no row; the sleep over, the loop checks again. *)
Theorem enough_keys_sleep_without_search_or_insert
    (e : env) (st : state) (c : Z) :
  at_ st = Checking ->
  countUnpicked (fault e) (db st) = (c, None) ->
  target cfg <= c ->
  exists effs,
    step cfg (Tick e) st = Some (mkState (Sleeping Enough) (db st), effs) /\
    effs = [CallCount; Log (EnoughKeys c (target cfg) (sleepDur cfg));
            Sleep (sleepDur cfg)] /\
    ~ In CallSearch effs /\
    (forall k, ~ In (CallCreate k) effs) /\
    duration cfg Enough = sleepDur cfg /\
    forall e', step cfg (Tick e') (mkState (Sleeping Enough) (db st)) =
               Some (mkState Checking (db st), []).
Proof.
  intros Hat Hc Ht. eexists. split; [| split; [reflexivity |]].
  - simpl. unfold tick. rewrite Hat, Hc.
    destruct (target cfg <=? c) eqn:E; [reflexivity |].
    apply Z.leb_gt in E. lia.
  - split; [| split; [| split; [reflexivity | reflexivity]]].
    + simpl. intuition discriminate.
    + intros k. simpl. intuition discriminate.
Qed.

(** C6: an error of [countUnpicked] in [Checking] is logged, the loop
    sleeps ten seconds and checks again; and no store error ends the
    loop: a failed insert goes back to the loop test with the table
    as it was, a failed recount goes to the sleep of line 138 and on
    to the next check, and outside a running search the loop always
    has a next step. *)
Theorem store_errors_never_stop_the_loop :
  (forall (db0 : table) (err : error) (u : string) (n : Z) (e' : env),
     step cfg (Tick (mkEnv (Some err) u n)) (mkState Checking db0) =
       Some (mkState (Sleeping CountBackoff) db0,
             [CallCount; Log (CountFailed err); Sleep (10 * Second)]) /\
     step cfg (Tick e') (mkState (Sleeping CountBackoff) db0) =
       Some (mkState Checking db0, [])) /\
  (forall (db0 : table) (err : error) (u : string) (n : Z) (c : Z) (kp : Keypair),
     exists effs,
       step cfg (Tick (mkEnv (Some err) u n)) (mkState (Inserting c kp) db0) =
         Some (mkState (Filling c) db0, effs)) /\
  (forall (db0 : table) (err : error) (u : string) (n : Z) (k : TokenKey) (e' : env),
     (exists effs,
        step cfg (Tick (mkEnv (Some err) u n)) (mkState (Recounting k) db0) =
          Some (mkState (Sleeping AfterFill) db0, effs)) /\
     step cfg (Tick e') (mkState (Sleeping AfterFill) db0) =
       Some (mkState Checking db0, [])) /\
  (forall (st : state) (e : env),
     (exists st' effs, step cfg (Tick e) st = Some (st', effs)) \/
     (exists c g, at_ st = Searching c g)).
Proof.
  split; [| split; [| split]].
  - intros. split; reflexivity.
  - intros. eexists. reflexivity.
  - intros. split; [eexists |]; reflexivity.
  - intros st e. destruct st as [p d]. destruct p as [| s | c | c g | c kp | k].
    + left. simpl. unfold tick. simpl.
      destruct (countUnpicked (fault e) d) as [c [err|]]; [eauto |].
      destruct (target cfg <=? c); eauto.
    + left. destruct s; simpl; eauto.
    + left. simpl. unfold tick. simpl. destruct (c <? target cfg); eauto.
    + right. eauto.
    + left. simpl. unfold tick. simpl.
      destruct (createOnConflictDoNothing _ _ _ _) as [d' [err|]]; eauto.
    + left. simpl. unfold tick. simpl.
      destruct (countUnpicked (fault e) d) as [c [err|]]; eauto.
Qed.

Lemma fill_inv_step (i : input) (st st' : state) (effs : list effect) :
  is_pick i = false ->
  fill_inv st ->
  step cfg i st = Some (st', effs) ->
  fill_inv st'.
Proof.
  intros Hi I H. destruct st as [p d].
  destruct i as [e | ev | pub]; [| | discriminate]; simpl in H.
  - unfold tick in H; simpl in H. unfold fill_inv in *. simpl in *.
    destruct p as [| s | c | c g | c kp | k].
    + destruct (fault e) as [err|]; simpl in H.
      * inversion H; subst. exact Logic.I.
      * destruct (target cfg <=? _); inversion H; subst; simpl; auto.
    + destruct s; inversion H; subst; simpl; auto.
    + destruct (c <? target cfg); inversion H; subst; simpl; auto.
    + destruct (Search.caller g) as [| | | kp [err|]]; inversion H; subst;
        simpl; auto.
    + unfold createOnConflictDoNothing in H.
      destruct (fault e) as [err|]; simpl in H.
      * inversion H; subst. simpl. reflexivity.
      * destruct (hasPublicKey (Pub kp) d); inversion H; subst; simpl; auto.
    + destruct (fault e) as [err|]; simpl in H; inversion H; subst; simpl; auto.
  - destruct p as [| s | c | c g | c kp | k]; try discriminate.
    destruct (Search.is_cancel ev); [discriminate |].
    destruct (Search.step (workers cfg) ev g); inversion H; subst.
    unfold fill_inv in *. simpl in *. exact I.
Qed.

Lemma fill_inv_run (ins : list input) (st st' : state) (effs : list effect) :
  no_pick ins ->
  fill_inv st ->
  run cfg ins st = Some (st', effs) ->
  fill_inv st'.
Proof.
  revert st effs; induction ins as [|i ins IH]; simpl; intros st effs Hn I H.
  - inversion H; subst. exact I.
  - unfold no_pick in Hn. simpl in Hn. apply andb_true_iff in Hn as [Hi Hn].
    apply negb_true_iff in Hi.
    destruct (step cfg i st) as [[st1 effs1]|] eqn:E; [| discriminate].
    destruct (run cfg ins st1) as [[st2 effs2]|] eqn:E2; [| discriminate].
    inversion H; subst.
    eapply IH; [exact Hn | | exact E2].
    eapply fill_inv_step; eauto.
Qed.

(** C2, as amended: when no external consumer marks keys, and the
    inner loop ends because its test [c < target] fails, the table
    holds at least [target] unpicked rows at the sleep of line 138. *)
Theorem filling_ends_by_test_with_target_reached
    (db0 : table) (ins : list input) (st st' : state)
    (effs effs' : list effect) (c : Z) (e : env) :
  no_pick ins ->
  run cfg ins (mkState Checking db0) = Some (st, effs) ->
  at_ st = Filling c ->
  step cfg (Tick e) st = Some (st', effs') ->
  at_ st' = Sleeping AfterFill ->
  db st' = db st /\
  target cfg <= fst (countUnpicked None (db st')).
Proof.
  intros Hn Hrun Hat Hstep Hat'.
  assert (I : fill_inv st).
  { eapply fill_inv_run; [exact Hn | | exact Hrun]. exact Logic.I. }
  unfold fill_inv in I. rewrite Hat in I.
  simpl in Hstep. unfold tick in Hstep. rewrite Hat in Hstep.
  destruct (c <? target cfg) eqn:E; inversion Hstep; subst st'; clear Hstep;
    simpl in *; [discriminate |].
  apply Z.ltb_ge in E. split; [reflexivity | lia].
Qed.

End MaintainFacts.

Section SearchInLoop.

Import Maintain.

Variable cfg : config.

Lemma step_keeps_ctx (w : Z) (ev : Search.event) (g g' : Search.call) :
  Search.is_cancel ev = false ->
  Search.step w ev g = Some g' ->
  Search.ctxErr g' = Search.ctxErr g.
Proof.
  intros Hc H. destruct ev as [ce | pick | i acc]; [discriminate | |];
    simpl in H.
  - unfold Search.body in H.
    destruct (Search.caller g) as [| j | | kp err]; [| | | discriminate].
    + inversion H; reflexivity.
    + destruct (j <? w); inversion H; reflexivity.
    + destruct (Search.ctxErr g) eqn:Ee, (Search.found g) eqn:Ef;
        try destruct pick; inversion H; subst g'; simpl; congruence.
  - unfold Search.worker in H.
    destruct (Search.pool g !! i) as [[| | kp |]|]; try discriminate.
    + destruct (Search.ctxErr g) eqn:Ee; inversion H; subst g'; simpl;
        congruence.
    + destruct (strings.HasSuffix _ _); inversion H; reflexivity.
    + destruct (length (Search.found g) <? Search.foundCap)%nat;
        inversion H; reflexivity.
Qed.

Lemma search_quiet_step (i : input) (st st' : state) (effs : list effect) :
  search_quiet cfg st ->
  step cfg i st = Some (st', effs) ->
  search_quiet cfg st' /\ forallb (fun x => negb (is_search_failed x)) effs = true.
Proof.
  intros Q H. destruct st as [p d]. unfold search_quiet in *. simpl in Q.
  destruct i as [e | ev | pub]; simpl in H.
  - unfold tick in H; simpl in H.
    destruct p as [| s | c | c g | c kp | k].
    + destruct (countUnpicked (fault e) d) as [c [err|]].
      * inversion H; subst. simpl. auto.
      * destruct (target cfg <=? c); inversion H; subst; simpl; auto.
    + destruct s; try contradiction; inversion H; subst; simpl; auto.
    + destruct (c <? target cfg); inversion H; subst; simpl; auto.
      split; [| reflexivity]. split; [reflexivity |].
      apply search_inv_enter.
    + destruct Q as [Qc Qi].
      destruct (Search.caller g) as [| | | kp [err|]] eqn:Ec;
        try discriminate.
      * destruct (inv_err _ _ _ Qi _ _ Ec) as (_ & ce & _ & Hce).
        congruence.
      * inversion H; subst. simpl. auto.
    + destruct (createOnConflictDoNothing _ _ _ _) as [d' [err|]];
        inversion H; subst; simpl; auto.
    + destruct (countUnpicked (fault e) d) as [c [err|]];
        inversion H; subst; simpl; auto.
  - destruct p as [| s | c | c g | c kp | k]; try discriminate.
    destruct (Search.is_cancel ev) eqn:Ecn; [discriminate |].
    destruct (Search.step (workers cfg) ev g) as [g'|] eqn:Es;
      inversion H; subst. simpl. destruct Q as [Qc Qi].
    split; [| reflexivity]. split.
    + rewrite (step_keeps_ctx _ _ _ _ Ecn Es). exact Qc.
    + eapply search_inv_step; eauto.
  - inversion H; subst. simpl. auto.
Qed.

Lemma search_quiet_run (ins : list input) (st st' : state) (effs : list effect) :
  search_quiet cfg st ->
  run cfg ins st = Some (st', effs) ->
  search_quiet cfg st' /\ forallb (fun x => negb (is_search_failed x)) effs = true.
Proof.
  revert st effs; induction ins as [|i ins IH]; simpl; intros st effs Q H.
  - inversion H; subst. auto.
  - destruct (step cfg i st) as [[st1 effs1]|] eqn:E; [| discriminate].
    destruct (run cfg ins st1) as [[st2 effs2]|] eqn:E2; [| discriminate].
    inversion H; subst.
    destruct (search_quiet_step _ _ _ _ Q E) as [Q1 F1].
    destruct (IH _ _ Q1 E2) as [Q2 F2].
    split; [exact Q2 |]. rewrite forallb_app, F1, F2. reflexivity.
Qed.

(** C9: in every run of the loop, the context of a running search is
    not done, so a search that returns does so with a nil error and the
    loop goes on to the insert with a key pair that passed the suffix
    test; the branch of lines 107-111 is never taken: the loop is never
    at the sleep of line 109 and never logs the message of line 108. *)
Theorem search_error_branch_is_dead
    (db0 : table) (ins : list input) (st : state) (effs : list effect) :
  run cfg ins (mkState Checking db0) = Some (st, effs) ->
  (forall c, at_ st <> Sleeping (SearchBackoff c)) /\
  (forall err, ~ In (Log (SearchFailed err)) effs) /\
  (forall c g, at_ st = Searching c g ->
     Search.ctxErr g = None /\
     (forall kp err, Search.caller g = Search.MReturn kp err -> err = None) /\
     (forall e st' effs', step cfg (Tick e) st = Some (st', effs') ->
        exists kp, Search.caller g = Search.MReturn kp None /\
                   st' = mkState (Inserting c kp) (db st) /\
                   matches (strings.TrimSpace (suffix cfg)) kp)).
Proof.
  intros Hrun.
  assert (Q0 : search_quiet cfg (mkState Checking db0)) by exact Logic.I.
  destruct (search_quiet_run ins _ _ _ Q0 Hrun) as [Q F].
  unfold search_quiet in Q. split; [| split].
  - intros c E. rewrite E in Q. exact Q.
  - intros err Hin. rewrite forallb_forall in F.
    specialize (F _ Hin). discriminate.
  - intros c g E. rewrite E in Q. destruct Q as [Qc Qi].
    assert (Hnil : forall kp err,
               Search.caller g = Search.MReturn kp err -> err = None).
    { intros kp [err|] Hc; [| reflexivity].
      destruct (inv_err _ _ _ Qi _ _ Hc) as (_ & ce & _ & Hce). congruence. }
    split; [exact Qc |]. split; [exact Hnil |].
    intros e st' effs' Hs. simpl in Hs. unfold tick in Hs. rewrite E in Hs.
    destruct (Search.caller g) as [| | | kp err] eqn:Ec; try discriminate.
    pose proof (Hnil kp err eq_refl) as ->.
    inversion Hs; subst. exists kp.
    split; [reflexivity |]. split; [reflexivity |].
    exact (inv_ok _ _ _ Qi kp Ec).
Qed.

End SearchInLoop.

Section MaintainRuns.

Import Maintain.

(** The search inside the loop is the search of [Search], without
    cancellation. *)
Lemma search_in_loop (cfg : config) (evs : list Search.event)
    (c : Z) (g g' : Search.call) (d : table) :
  forallb (fun ev => negb (Search.is_cancel ev)) evs = true ->
  Search.run (workers cfg) evs g = Some g' ->
  run cfg (map InSearch evs) (mkState (Searching c g) d) =
    Some (mkState (Searching c g') d, []).
Proof.
  revert g; induction evs as [|ev evs IH]; simpl; intros g Hn H.
  - now inversion H.
  - apply andb_true_iff in Hn as [Hev Hn]. apply negb_true_iff in Hev.
    rewrite Hev.
    destruct (Search.step (workers cfg) ev g) as [g1|]; [| discriminate].
    now rewrite (IH g1 Hn H).
Qed.

(** Target 3, empty table, empty suffix: after one episode the table
    holds three unpicked rows with three different public keys, and the
    loop sleeps at line 138. *)
Example fill_three_keys :
  exists st effs,
    run PoolScenario.cfg3 PoolScenario.fill_three (mkState Checking []) =
      Some (st, effs) /\
    at_ st = Sleeping AfterFill /\
    fst (countUnpicked None (db st)) = 3 /\
    map PublicKey (db st) =
      [Pub (Scenario.key x01); Pub (Scenario.key x02); Pub (Scenario.key x03)] /\
    map IsPicked (db st) = [false; false; false].
Proof.
  eexists _, _. split; [vm_compute; reflexivity |].
  repeat split.
Qed.

Lemma search_error_branch_is_dead_witness :
  exists kp,
    Search.caller (Search.mkCall "" None [] [Search.WDone]
                     (Search.MReturn (Scenario.key x00) None) 1) =
      Search.MReturn kp None /\
    matches (strings.TrimSpace (suffix PoolScenario.cfg2)) kp.
Proof.
  set (g := Search.mkCall "" None [] [Search.WDone]
              (Search.MReturn (Scenario.key x00) None) 1).
  assert (Hrun : run PoolScenario.cfg2 PoolScenario.one_search
                   (mkState Checking []) =
                 Some (mkState (Searching 0 g) [],
                       [CallCount; Log (BelowTarget 0 2); CallSearch]))
    by (vm_compute; reflexivity).
  destruct (proj2 (proj2 (search_error_branch_is_dead PoolScenario.cfg2 []
                            PoolScenario.one_search _ _ Hrun))
                  0 g eq_refl) as (_ & _ & H).
  destruct (H PoolScenario.ok _ _ eq_refl) as (kp & H1 & _ & H3).
  exists kp. split; [exact H1 | exact H3].
Defined.

Lemma filling_ends_by_test_with_target_reached_witness :
  2 <= fst (countUnpicked None
              (PoolScenario.one_unpicked ++
               [mkTokenKey (uuid PoolScenario.ok) (Priv (Scenario.key x00))
                  (Pub (Scenario.key x00)) false (now PoolScenario.ok)])).
Proof.
  set (d := PoolScenario.one_unpicked ++
            [mkTokenKey (uuid PoolScenario.ok) (Priv (Scenario.key x00))
               (Pub (Scenario.key x00)) false (now PoolScenario.ok)]).
  refine (proj2 (filling_ends_by_test_with_target_reached
                   PoolScenario.cfg2 PoolScenario.one_unpicked
                   PoolScenario.one_key_added
                   (mkState (Filling 2) d) (mkState (Sleeping AfterFill) d)
                   _ _ 2 PoolScenario.ok _ _ _ _ _));
    vm_compute; reflexivity.
Defined.

(** C2 as stated fails: with target 2 and an empty table, one key is
    stored, the count after it returns an error, the inner loop is left
    by [break] and the loop sleeps at line 138 with one unpicked row. *)
Lemma filling_may_end_below_target :
  ~ (forall (cfg : config) (db0 : table) (ins : list input) (st : state)
            (effs : list effect),
       no_pick ins ->
       run cfg ins (mkState Checking db0) = Some (st, effs) ->
       at_ st = Sleeping AfterFill ->
       target cfg <= fst (countUnpicked None (db st))).
Proof.
  intros H.
  destruct (run PoolScenario.cfg2 PoolScenario.recount_fails
              (mkState Checking [])) as [[st effs]|] eqn:E;
    [| vm_compute in E; discriminate].
  specialize (H PoolScenario.cfg2 [] PoolScenario.recount_fails st effs
                eq_refl E).
  vm_compute in E. inversion E; subst st effs; clear E.
  specialize (H eq_refl). vm_compute in H. now apply H.
Qed.

Lemma enough_keys_sleep_without_search_or_insert_witness :
  exists effs,
    step PoolScenario.cfg5 (Tick PoolScenario.ok)
      (mkState Checking PoolScenario.five_unpicked) =
    Some (mkState (Sleeping Enough) PoolScenario.five_unpicked, effs) /\
    ~ In CallSearch effs /\ (forall k, ~ In (CallCreate k) effs).
Proof.
  destruct (enough_keys_sleep_without_search_or_insert
              PoolScenario.cfg5 PoolScenario.ok
              (mkState Checking PoolScenario.five_unpicked) 5
              eq_refl eq_refl ltac:(vm_compute; discriminate))
    as (effs & H1 & _ & H3 & H4 & _).
  exists effs. auto.
Defined.

End MaintainRuns.

(** ** generateVanityKeypair: termination under a fair schedule *)

Section SearchSteps.

Import Search.

Variable workers : Z.
Variable s : string.

Lemma published_step e st st' :
  search_inv workers s st ->
  ctxErr st = None ->
  step workers e st = Some st' ->
  published st ->
  published st'.
Proof.
  intros I Hc H P. unfold published in *.
  destruct e as [ce | pick | i acc]; simpl in H.
  - rewrite Hc in H. inversion H; subst st'. simpl. exact P.
  - unfold body in H.
    destruct (caller st) as [| j | | kp err] eqn:Ec; [| | | discriminate].
    + destruct (inv_entry _ _ _ I Ec) as [Hf _].
      destruct P as [P | [kp P]]; [contradiction | discriminate].
    + destruct P as [P | [kp P]]; [| discriminate].
      destruct (j <? workers); inversion H; subst st'; simpl; auto.
    + rewrite Hc in H. destruct (found st) as [|kp rest]; [discriminate |].
      inversion H; subst st'. simpl. eauto.
  - unfold worker in H.
    destruct (pool st !! i) as [[| | kp |]|]; try discriminate.
    + rewrite Hc in H. inversion H; subst st'. simpl. exact P.
    + destruct (strings.HasSuffix _ _); inversion H; subst st'; simpl;
        exact P.
    + destruct (length (found st) <? foundCap)%nat; inversion H; subst st'.
      simpl. left. destruct (found st); discriminate.
Qed.

Lemma matched_step e st st' :
  search_inv workers s st ->
  ctxErr st = None ->
  step workers e st = Some st' ->
  matched st ->
  matched st'.
Proof.
  intros I Hc H [P | (i & kp & Hi)];
    [left; eapply published_step; eauto |].
  unfold matched, published.
  destruct e as [ce | pick | j acc]; simpl in H.
  - rewrite Hc in H. inversion H; subst st'. simpl. eauto.
  - unfold body in H.
    destruct (caller st) as [| n | | kp0 err] eqn:Ec; [| | | discriminate].
    + destruct (inv_entry _ _ _ I Ec) as [_ Hp].
      rewrite Hp, lookup_nil in Hi. discriminate.
    + destruct (n <? workers); inversion H; subst st'; simpl;
        [| eauto].
      right. exists i, kp. now apply lookup_app_l_Some.
    + rewrite Hc in H. destruct (found st) as [|kp0 rest]; [discriminate |].
      inversion H; subst st'. simpl. eauto.
  - unfold worker in H.
    destruct (pool st !! j) as [[| | kp' |]|] eqn:Ej; try discriminate.
    + rewrite Hc in H. inversion H; subst st'. simpl.
      right. exists i, kp. rewrite list_lookup_insert_ne; [exact Hi | congruence].
    + destruct (strings.HasSuffix _ _); inversion H; subst st'; simpl;
        right; exists i, kp;
        (rewrite list_lookup_insert_ne; [exact Hi | congruence]).
    + destruct (length (found st) <? foundCap)%nat; inversion H; subst st'.
      simpl. left. left. destruct (found st); discriminate.
Qed.

Lemma live_inv_step e st st' :
  search_inv workers s st ->
  is_cancel e = false ->
  step workers e st = Some st' ->
  live_inv st ->
  live_inv st'.
Proof.
  intros I Hn H [Hc L]. split.
  - rewrite (step_keeps_ctx _ _ _ _ Hn H). exact Hc.
  - intros (i & Hi).
    assert (Hold : (exists i, pool st !! i = Some WDone) -> published st')
      by (intros X; eapply published_step; eauto).
    destruct e as [ce | pick | j acc]; [discriminate | |]; simpl in H.
    + unfold body in H.
      destruct (caller st) as [| n | | kp0 err] eqn:Ec; [| | | discriminate].
      * inversion H; subst st'. simpl in *. eauto.
      * destruct (n <? workers); inversion H; subst st'; simpl in *;
          [| eauto].
        apply lookup_snoc_Some in Hi as [[_ Hi] | [_ ?]];
          [eauto | discriminate].
      * rewrite Hc in H. destruct (found st); [discriminate |].
        inversion H; subst st'. simpl in *. eauto.
    + unfold worker in H.
      destruct (pool st !! j) as [[| | kp' |]|] eqn:Ej; try discriminate.
      * rewrite Hc in H. inversion H; subst st'. simpl in *.
        apply list_lookup_insert_Some in Hi
          as [(_ & ? & _) | (_ & Hi)]; [discriminate | eauto].
      * destruct (strings.HasSuffix _ _); inversion H; subst st'; simpl in *;
          apply list_lookup_insert_Some in Hi
            as [(_ & ? & _) | (_ & Hi)]; try discriminate; eauto.
      * destruct (length (found st) <? foundCap)%nat; inversion H; subst st'.
        left. simpl. destruct (found st); discriminate.
Qed.

Lemma caller_kept e st st' :
  is_main e = false ->
  step workers e st = Some st' ->
  caller st' = caller st.
Proof.
  intros Hm H. destruct e as [ce | pick | j acc]; [| discriminate |];
    simpl in H.
  - destruct (ctxErr st); inversion H; reflexivity.
  - unfold worker in H.
    destruct (pool st !! j) as [[| | kp' |]|]; try discriminate.
    + destruct (ctxErr st); inversion H; reflexivity.
    + destruct (strings.HasSuffix _ _); inversion H; reflexivity.
    + destruct (length (found st) <? foundCap)%nat; inversion H; reflexivity.
Qed.

Lemma pc_kept e st st' i pc :
  is_worker i e = false ->
  step workers e st = Some st' ->
  pool st !! i = Some pc ->
  pool st' !! i = Some pc.
Proof.
  intros Hw H Hi. destruct e as [ce | pick | j acc]; simpl in H.
  - destruct (ctxErr st); inversion H; subst; exact Hi.
  - unfold body in H.
    destruct (caller st) as [| n | | kp0 err]; [| | | discriminate].
    + inversion H; subst; exact Hi.
    + destruct (n <? workers); inversion H; subst; simpl; [| exact Hi].
      now apply lookup_app_l_Some.
    + destruct (ctxErr st), (found st); try destruct pick;
        inversion H; subst; exact Hi.
  - simpl in Hw. apply Nat.eqb_neq in Hw.
    unfold worker in H.
    destruct (pool st !! j) as [[| | kp' |]|]; try discriminate.
    + destruct (ctxErr st); inversion H; subst; simpl;
        rewrite list_lookup_insert_ne; auto.
    + destruct (strings.HasSuffix _ _); inversion H; subst; simpl;
        rewrite list_lookup_insert_ne; auto.
    + destruct (length (found st) <? foundCap)%nat; inversion H; subst; simpl.
      rewrite list_lookup_insert_ne; auto.
Qed.

Lemma draws_grow e st st' :
  step workers e st = Some st' -> (draws st <= draws st')%nat.
Proof.
  intros H. destruct e as [ce | pick | j acc]; simpl in H.
  - destruct (ctxErr st); inversion H; subst; simpl; lia.
  - unfold body in H.
    destruct (caller st) as [| n | | kp0 err]; [| | | discriminate].
    + inversion H; subst; simpl; lia.
    + destruct (n <? workers); inversion H; subst; simpl; lia.
    + destruct (ctxErr st), (found st); try destruct pick;
        inversion H; subst; simpl; lia.
  - unfold worker in H.
    destruct (pool st !! j) as [[| | kp' |]|]; try discriminate.
    + destruct (ctxErr st); inversion H; subst; simpl; lia.
    + destruct (strings.HasSuffix _ _); inversion H; subst; simpl; lia.
    + destruct (length (found st) <? foundCap)%nat; inversion H; subst; simpl.
      lia.
Qed.

End SearchSteps.

Section SearchLiveness.

Import Search.

Variable workers : Z.
Variable s : string.
Variable sched : nat -> event.

Hypothesis Hquiet : forall n, is_cancel (sched n) = false.

Lemma after_S n :
  after workers sched s (S n) =
  step_or_stay workers (sched n) (after workers sched s n).
Proof. reflexivity. Qed.

Lemma after_inv n : search_inv workers s (after workers sched s n).
Proof. apply search_inv_after. Qed.

Lemma after_live n : live_inv (after workers sched s n).
Proof.
  induction n as [|n IH].
  - split; [reflexivity |]. intros [i Hi]. simpl in Hi.
    rewrite lookup_nil in Hi. discriminate.
  - rewrite after_S. unfold step_or_stay.
    destruct (step workers (sched n) (after workers sched s n)) eqn:E; [| exact IH].
    eapply live_inv_step; eauto. apply after_inv.
Qed.

Lemma after_ctx n : ctxErr (after workers sched s n) = None.
Proof. apply after_live. Qed.

(** A property that steps keep is kept along the schedule. *)
Lemma kept_later (P : call -> Prop) :
  (forall e st st', search_inv workers s st -> ctxErr st = None ->
     step workers e st = Some st' -> P st -> P st') ->
  forall n d, P (after workers sched s n) -> P (after workers sched s (n + d)).
Proof.
  intros HP n d H. induction d as [|d IH].
  - now rewrite Nat.add_0_r.
  - rewrite Nat.add_succ_r, after_S. unfold step_or_stay.
    destruct (step workers (sched (n + d)) (after workers sched s (n + d))) eqn:E;
      [| exact IH].
    eapply HP; eauto; [apply after_inv | apply after_ctx].
Qed.

Lemma published_later n d : published (after workers sched s n) -> published (after workers sched s (n + d)).
Proof. apply kept_later. apply published_step. Qed.

Lemma matched_later n d : matched (after workers sched s n) -> matched (after workers sched s (n + d)).
Proof. apply kept_later. apply matched_step. Qed.

Lemma draws_later n d : (draws (after workers sched s n) <= draws (after workers sched s (n + d)))%nat.
Proof.
  induction d as [|d IH]; [rewrite Nat.add_0_r; lia |].
  rewrite Nat.add_succ_r, after_S. unfold step_or_stay.
  destruct (step workers (sched (n + d)) (after workers sched s (n + d))) eqn:E; [| exact IH].
  apply draws_grow in E. lia.
Qed.

Lemma spawned_later i n d :
  is_Some (pool (after workers sched s n) !! i) -> is_Some (pool (after workers sched s (n + d)) !! i).
Proof.
  apply (kept_later (fun st => is_Some (pool st !! i))).
  intros e st st' _ _ H [pc Hpc].
  destruct (is_worker i e) eqn:Ew.
  - destruct e as [ce | pick | j acc]; try discriminate.
    simpl in Ew. apply Nat.eqb_eq in Ew. subst j.
    simpl in H. unfold worker in H. rewrite Hpc in H.
    apply lookup_lt_Some in Hpc.
    destruct pc as [| | kp |]; [| | | discriminate].
    + destruct (ctxErr st); inversion H; subst; simpl;
        rewrite list_lookup_insert_eq; eauto.
    + destruct (strings.HasSuffix _ _); inversion H; subst; simpl;
        rewrite list_lookup_insert_eq; eauto.
    + destruct (length (found st) <? foundCap)%nat; inversion H; subst; simpl.
      rewrite list_lookup_insert_eq; eauto.
  - exists pc. eapply pc_kept; eauto.
Qed.

(** Up to the next step of the caller, the caller stays where it is. *)
Lemma caller_until_main n d :
  is_main (sched (n + d)) = true ->
  exists d', is_main (sched (n + d')) = true /\
             caller (after workers sched s (n + d')) = caller (after workers sched s n).
Proof.
  revert n; induction d as [|d IH]; intros n H.
  - exists 0%nat. rewrite Nat.add_0_r in *. auto.
  - destruct (is_main (sched n)) eqn:Em.
    + exists 0%nat. rewrite Nat.add_0_r. auto.
    + destruct (IH (S n)) as (d' & H1 & H2).
      { now rewrite Nat.add_succ_comm. }
      exists (S d'). rewrite <- Nat.add_succ_comm. split; [exact H1 |].
      rewrite H2, after_S. unfold step_or_stay.
      destruct (step workers (sched n) (after workers sched s n)) eqn:E; [| reflexivity].
      eapply caller_kept; eauto.
Qed.

(** Up to its next step, a worker stays where it is. *)
Lemma pc_until_worker i pc n d :
  is_worker i (sched (n + d)) = true ->
  pool (after workers sched s n) !! i = Some pc ->
  exists d', is_worker i (sched (n + d')) = true /\
             pool (after workers sched s (n + d')) !! i = Some pc.
Proof.
  revert n; induction d as [|d IH]; intros n H Hpc.
  - exists 0%nat. rewrite Nat.add_0_r in *. auto.
  - destruct (is_worker i (sched n)) eqn:Em.
    + exists 0%nat. rewrite Nat.add_0_r. auto.
    + destruct (IH (S n)) as (d' & H1 & H2).
      { now rewrite Nat.add_succ_comm. }
      { rewrite after_S. unfold step_or_stay.
        destruct (step workers (sched n) (after workers sched s n)) eqn:E; [| exact Hpc].
        eapply pc_kept; eauto. }
      exists (S d'). rewrite <- Nat.add_succ_comm. auto.
Qed.

Hypothesis Hfair : fair workers sched.

Lemma next_main n :
  exists d, is_main (sched (n + d)) = true /\
            caller (after workers sched s (n + d)) = caller (after workers sched s n).
Proof.
  destruct (proj1 Hfair n) as (m & Hm & H).
  apply (caller_until_main n (m - n)).
  now replace (n + (m - n))%nat with m by lia.
Qed.

Lemma next_worker i pc n :
  pool (after workers sched s n) !! i = Some pc ->
  exists d acc, sched (n + d) = Worker i acc /\
                pool (after workers sched s (n + d)) !! i = Some pc.
Proof.
  intros Hpc.
  assert (Hi : Z.of_nat i < workers).
  { pose proof (inv_pool _ _ _ (after_inv n)) as Hl.
    apply lookup_lt_Some in Hpc. lia. }
  destruct (proj2 Hfair i Hi n) as (m & Hm & H).
  destruct (pc_until_worker i pc n (m - n)) as (d & H1 & H2); [| exact Hpc |].
  { now replace (n + (m - n))%nat with m by lia. }
  exists d. destruct (sched (n + d)) as [ce | pick | j acc] eqn:E;
    try discriminate.
  simpl in H1. apply Nat.eqb_eq in H1. subst j. eauto.
Qed.

(** The caller gets to its spawn loop and starts the first worker. *)
Hypothesis Hworkers : 1 <= workers.

Lemma first_worker_spawned : exists n, is_Some (pool (after workers sched s n) !! 0%nat).
Proof.
  destruct (next_main 0) as (d1 & Hm1 & Hc1).
  change (0 + d1)%nat with d1 in *. change (caller (after workers sched s 0)) with MEntry in Hc1.
  destruct (sched d1) as [ce | pick | j acc] eqn:E1; try discriminate.
  assert (H1 : caller (after workers sched s (S d1)) = MSpawn 0).
  { rewrite after_S, E1. unfold step_or_stay. cbn [step]. unfold body.
    rewrite Hc1. reflexivity. }
  destruct (next_main (S d1)) as (d2 & Hm2 & Hc2). rewrite H1 in Hc2.
  set (m := (S d1 + d2)%nat) in *.
  destruct (sched m) as [ce | pick2 | j acc] eqn:E2; try discriminate.
  exists (S m).
  rewrite after_S, E2. unfold step_or_stay. cbn [step]. unfold body.
  rewrite Hc2.
  destruct (0 <? workers) eqn:El; [| apply Z.ltb_ge in El; lia].
  cbn [pool].
  destruct (inv_spawn _ _ _ (after_inv m) _ Hc2) as [_ Hl].
  destruct (pool (after workers sched s m)); simpl in *; [eauto | lia].
Qed.

(** A worker that is there draws again, unless a match is found. *)
Lemma worker_draws_again i n :
  is_Some (pool (after workers sched s n) !! i) ->
  exists d, matched (after workers sched s (n + d)) \/
            (draws (after workers sched s n) < draws (after workers sched s (n + d)))%nat.
Proof.
  assert (Hsample : forall m, pool (after workers sched s m) !! i = Some WSample ->
            exists d, (draws (after workers sched s m) < draws (after workers sched s (m + d)))%nat).
  { intros m Hpc.
    destruct (next_worker i _ m Hpc) as (d & acc & Hs & Hp).
    exists (S d). rewrite Nat.add_succ_r, after_S, Hs.
    unfold step_or_stay. simpl. unfold worker. rewrite Hp.
    pose proof (draws_later m d).
    destruct (strings.HasSuffix _ _); simpl; lia. }
  intros [pc Hpc]. destruct pc as [| | kp |].
  - destruct (next_worker i _ n Hpc) as (d & acc & Hs & Hp).
    assert (Hnext : pool (after workers sched s (S (n + d))) !! i = Some WSample).
    { rewrite after_S, Hs. unfold step_or_stay. simpl. unfold worker.
      rewrite Hp, (after_ctx (n + d)). simpl.
      apply list_lookup_insert_eq. now apply lookup_lt_Some in Hp. }
    destruct (Hsample _ Hnext) as (d2 & Hd).
    exists (S d + d2)%nat. right.
    pose proof (draws_later n (S d)).
    replace (n + (S d + d2))%nat with (S (n + d) + d2)%nat by lia.
    replace (n + S d)%nat with (S (n + d)) in * by lia. lia.
  - destruct (Hsample _ Hpc) as (d & Hd). eauto.
  - exists 0%nat. left. right. rewrite Nat.add_0_r. eauto.
  - exists 0%nat. left. left. rewrite Nat.add_0_r.
    apply (after_live n). eauto.
Qed.

(** The accounts come from a sampler whose draw number [k] matches. *)
Variable sampler : nat -> types.Account.
Variable k : nat.

Hypothesis Hdrawn : drawn_from sampler workers s sched.
Hypothesis Hk :
  strings.HasSuffix (base58.Encode (types.PublicKey (sampler k))) s = true.

Lemma suffix_is_trimmed : strings.TrimSpace s = s.
Proof. eapply TrimSpace_suffix_of_key, Hk. Qed.

Lemma matched_or_not_drawn n : matched (after workers sched s n) \/ (draws (after workers sched s n) <= k)%nat.
Proof.
  induction n as [|n IH]; [right; simpl; lia |].
  destruct IH as [IH | IH].
  { left. replace (S n) with (n + 1)%nat by lia. now apply matched_later. }
  rewrite after_S. unfold step_or_stay.
  destruct (step workers (sched n) (after workers sched s n)) as [st'|] eqn:E; [| now right].
  destruct (sched n) as [ce | pick | i acc] eqn:Es; simpl in E.
  - right. destruct (ctxErr (after workers sched s n)); inversion E; subst; simpl; exact IH.
  - right. unfold body in E.
    destruct (caller (after workers sched s n)) as [| j | | kp0 err]; [| | | discriminate].
    + inversion E; subst; exact IH.
    + destruct (j <? workers); inversion E; subst; exact IH.
    + destruct (ctxErr (after workers sched s n)), (found (after workers sched s n)); try destruct pick;
        inversion E; subst; exact IH.
  - unfold worker in E.
    destruct (pool (after workers sched s n) !! i) as [[| | kp |]|] eqn:Ei; try discriminate.
    + right. destruct (ctxErr (after workers sched s n)); inversion E; subst; exact IH.
    + pose proof (Hdrawn n i acc Es) as Hacc.
      assert (Hsuf : suffix (after workers sched s n) = s).
      { pose proof (inv_suffix _ _ _ (after_inv n)) as Hs.
        destruct (caller (after workers sched s n)) eqn:Ec;
          try (rewrite Hs; apply suffix_is_trimmed).
        destruct (inv_entry _ _ _ (after_inv n) Ec) as [_ Hp].
        rewrite Hp, lookup_nil in Ei. discriminate. }
      apply lookup_lt_Some in Ei.
      simpl in E. rewrite Hsuf in E.
      destruct (Nat.eq_dec (draws (after workers sched s n)) k) as [Ek | Ek].
      * rewrite Hacc, Ek, Hk in E. inversion E; subst st'.
        left. right. eexists i, _. simpl.
        now apply list_lookup_insert_eq.
      * right.
        destruct (strings.HasSuffix (base58.Encode (types.PublicKey acc)) s);
          inversion E; subst st'; simpl; lia.
    + right.
      destruct (length (found (after workers sched s n)) <? foundCap)%nat; inversion E;
        subst; exact IH.
Qed.

Lemma eventually_matched : exists n, matched (after workers sched s n).
Proof.
  destruct first_worker_spawned as [n0 H0].
  assert (H : forall d n, is_Some (pool (after workers sched s n) !! 0%nat) ->
            (k < draws (after workers sched s n) + d)%nat -> exists m, matched (after workers sched s m)).
  { induction d as [|d IH]; intros n Hn Hd.
    - destruct (matched_or_not_drawn n) as [Hm | Hm]; [eauto | lia].
    - destruct (worker_draws_again 0 n Hn) as (d1 & [Hm | Hm]); [eauto |].
      apply (IH (n + d1)%nat); [now apply spawned_later | lia]. }
  apply (H (S k) n0 H0). lia.
Qed.

Lemma eventually_published : exists n, published (after workers sched s n).
Proof.
  destruct eventually_matched as (n & [Hp | (i & kp & Hi)]); [eauto |].
  destruct (next_worker i _ n Hi) as (d & acc & Hs & Hp).
  destruct (length (found (after workers sched s (n + d))) <? foundCap)%nat eqn:El.
  - exists (S (n + d)). rewrite after_S, Hs. unfold step_or_stay. simpl.
    unfold worker. rewrite Hp, El. left. simpl.
    destruct (found (after workers sched s (n + d))); discriminate.
  - exists (n + d)%nat. left. intros E. rewrite E in El. discriminate.
Qed.

Lemma select_returns n :
  published (after workers sched s n) -> caller (after workers sched s n) = MSelect ->
  exists m kp, caller (after workers sched s m) = MReturn kp None.
Proof.
  intros Hp Hc.
  destruct (next_main n) as (d & Hm & Hc'). rewrite Hc in Hc'.
  destruct (sched (n + d)) as [ce | pick | j acc] eqn:Es; try discriminate.
  pose proof (published_later n d Hp) as [Hf | [kp Hr]]; [| congruence].
  exists (S (n + d)). rewrite after_S, Es. unfold step_or_stay. simpl.
  unfold body. rewrite Hc', (after_ctx (n + d)).
  destruct (found (after workers sched s (n + d))) as [|kp rest]; [contradiction |].
  simpl. eauto.
Qed.

Lemma spawn_returns m : forall i n,
  Z.to_nat (workers - i) = m ->
  published (after workers sched s n) -> caller (after workers sched s n) = MSpawn i ->
  exists m' kp, caller (after workers sched s m') = MReturn kp None.
Proof.
  induction m as [m IH] using lt_wf_ind. intros i n Hmeasure Hp Hc.
  destruct (next_main n) as (d & Hm & Hc'). rewrite Hc in Hc'.
  destruct (sched (n + d)) as [ce | pick | j acc] eqn:Es; try discriminate.
  pose proof (published_later n (S d) Hp) as Hp'.
  rewrite Nat.add_succ_r in Hp'.
  assert (Hnext : caller (after workers sched s (S (n + d))) =
                  if i <? workers then MSpawn (i + 1) else MSelect).
  { rewrite after_S, Es. unfold step_or_stay. simpl. unfold body.
    rewrite Hc'. destruct (i <? workers); reflexivity. }
  destruct (i <? workers) eqn:El.
  - apply Z.ltb_lt in El.
    apply (IH (Z.to_nat (workers - (i + 1))) ltac:(lia) (i + 1)
              (S (n + d)) eq_refl Hp' Hnext).
  - eapply select_returns; eauto.
Qed.

Lemma eventually_returned :
  exists n kp, caller (after workers sched s n) = MReturn kp None.
Proof.
  destruct eventually_published as (n & Hp).
  destruct (caller (after workers sched s n)) as [| i | | kp [err|]] eqn:Ec.
  - destruct (inv_entry _ _ _ (after_inv n) Ec) as [Hf _].
    destruct Hp as [Hp | [kp Hp]]; [contradiction | congruence].
  - eapply spawn_returns; eauto.
  - eapply select_returns; eauto.
  - destruct (inv_err _ _ _ (after_inv n) _ _ Ec) as (_ & ce & _ & Hce).
    rewrite (after_ctx n) in Hce. discriminate.
  - eauto.
Qed.

Lemma fair_call_returns :
  exists n kp, caller (after workers sched s n) = MReturn kp None /\ ends_with (Pub kp) s.
Proof.
  destruct eventually_returned as (n & kp & Hr).
  exists n, kp. split; [exact Hr |].
  pose proof (inv_ok _ _ _ (after_inv n) kp Hr) as Hm.
  unfold matches in Hm. rewrite suffix_is_trimmed in Hm.
  now apply HasSuffix_ends_with.
Qed.

End SearchLiveness.

(** C8: for every suffix [s] and every [workers >= 1], when the sampler
    hands out, as some draw [k], an account whose public encoding ends
    with [s], the context is never cancelled and every goroutine of the
    call is scheduled again and again, the call returns, with a nil
    error, a key pair whose public encoding ends with [s]. *)
Theorem fair_search_returns_matching_key
    (s : string) (workers : Z) (sched : nat -> Search.event)
    (sampler : nat -> types.Account) (k : nat) :
  1 <= workers ->
  strings.HasSuffix (base58.Encode (types.PublicKey (sampler k))) s = true ->
  Search.drawn_from sampler workers s sched ->
  (forall n, Search.is_cancel (sched n) = false) ->
  Search.fair workers sched ->
  exists n kp,
    Search.caller (Search.after workers sched s n) = Search.MReturn kp None /\
    ends_with (Pub kp) s.
Proof.
  intros Hw Hk Hd Hq Hf.
  exact (fair_call_returns workers s sched Hq Hf Hw sampler k Hd Hk).
Qed.

Lemma fair_search_returns_matching_key_witness :
  exists n kp,
    Search.caller (Search.after 1 Scenario.round_robin "" n) =
      Search.MReturn kp None /\
    ends_with (Pub kp) "".
Proof.
  apply (fair_search_returns_matching_key "" 1 Scenario.round_robin
           (fun _ => Scenario.acc x00) 0).
  - lia.
  - vm_compute. reflexivity.
  - intros n i acc. unfold Scenario.round_robin.
    destruct (Nat.even n); [discriminate |]. now intros [= _ <-].
  - intros n. unfold Scenario.round_robin. now destruct (Nat.even n).
  - split.
    + intros n. exists (2 * n)%nat. split; [lia |].
      unfold Scenario.round_robin.
      replace (Nat.even (2 * n)) with true; [reflexivity |].
      symmetry. apply Nat.even_spec. now exists n.
    + intros i Hi n. exists (1 + 2 * n)%nat. split; [lia |].
      unfold Scenario.round_robin.
      rewrite Nat.even_add_mul_2. simpl.
      apply Nat.eqb_eq. lia.
Defined.
